(** * SHA-1 in JavaScript: gaswelder/sha1.js

    A shallow embedding of the two source files of the repository:

    - [Iter]: [src/sha1.js], the current version, written with generators
      ([function*], [yield], [for ... of]);
    - [Rec]: [src/unnamed/part_000], the earlier version of the same program,
      written with arrays and recursion over slices.

    JavaScript numbers are modelled as [Z].  Every number the program handles
    is an integer far below 2^53 (character codes, lengths, sums of at most
    five words and one parsed word), where IEEE doubles are exact, so integer
    arithmetic is what the program computes.  The 32-bit conversions that the
    bit operators of JavaScript apply to their operands are written out in
    [JS].  Exceptions are modelled by the [result] type, generators by their
    trace: the values yielded, in order, and how the generator ended. *)

From Stdlib Require Import ZArith List String Ascii Strings.Byte Bool Lia HexString.
From Equations Require Import Equations.
Import ListNotations.
Local Open Scope Z_scope.

(** ** The JavaScript primitives the program uses *)

Module JS.

(** A UTF-16 code unit, kept as its two bytes: its code is in [0, 65535]
    by construction.  A string is a sequence of code units. *)
Record code_unit : Set := CodeUnit { hi : byte; lo : byte }.

Definition str : Set := list code_unit.

(** [c.charCodeAt(0)] for the one-unit string [c]. *)
Definition charCode (u : code_unit) : Z :=
  256 * Z.of_N (Byte.to_N (hi u)) + Z.of_N (Byte.to_N (lo u)).

Definition of_ascii (a : ascii) : code_unit := CodeUnit x00 (byte_of_ascii a).

(** A string literal with one-byte characters. *)
Fixpoint of_string (s : string) : str :=
  match s with
  | EmptyString => []
  | String a s' => of_ascii a :: of_string s'
  end.

(** The values a caller can pass to [sha1]. *)
Inductive value : Set :=
| Undefined
| Null
| Boolean (b : bool)
| Number (n : Z)
| Str (s : str)
| Object.

Definition typeof (v : value) : string :=
  match v with
  | Undefined => "undefined"
  | Null => "object"
  | Boolean _ => "boolean"
  | Number _ => "number"
  | Str _ => "string"
  | Object => "object"
  end.

(** The abstract operations ToUint32 and ToInt32 on an integer. *)
Definition ToUint32 (x : Z) : Z := x mod 2 ^ 32.

Definition ToInt32 (x : Z) : Z :=
  let m := x mod 2 ^ 32 in
  if m >=? 2 ^ 31 then m - 2 ^ 32 else m.

(** [x << n]: both operands converted, the count masked to five bits, the
    result a signed 32-bit integer. *)
Definition shift_left (x n : Z) : Z :=
  ToInt32 (Z.shiftl (ToInt32 x) (Z.land (ToUint32 n) 31)).

(** [x >>> n]: the left operand taken unsigned, the count masked to five
    bits ([x >>> 32] is [x >>> 0]). *)
Definition shift_right_unsigned (x n : Z) : Z :=
  Z.shiftr (ToUint32 x) (Z.land (ToUint32 n) 31).

(** [x & y], [x | y], [x ^ y], [~x]: operands converted to signed 32-bit
    integers, and so is the result. *)
Definition bit_and (x y : Z) : Z := Z.land (ToInt32 x) (ToInt32 y).
Definition bit_or (x y : Z) : Z := Z.lor (ToInt32 x) (ToInt32 y).
Definition bit_xor (x y : Z) : Z := Z.lxor (ToInt32 x) (ToInt32 y).
Definition bit_not (x : Z) : Z := Z.lnot (ToInt32 x).

(** [Math.ceil(a / b)] for integers [a] and a positive power of two [b]
    (the division is exact in doubles). *)
Definition ceil_div (a b : Z) : Z := - ((- a) / b).

(** [n.toString(16)] for an integer [n]: lowercase digits, no padding. *)
Definition toString16 (n : Z) : string :=
  match n with
  | Z0 => "0"
  | Zpos p => HexString.Raw.of_pos p ""
  | Zneg p => String "-" (HexString.Raw.of_pos p "")
  end.

(** [l.join(sep)] on an array of strings. *)
Definition join (sep : string) (l : list string) : string :=
  String.concat sep l.

(** [l[i]] read as a number.  Where JavaScript reads [undefined] (an index
    outside the array) the model gives [0], which is what the operands of
    [^] are converted to; the other reads of the program ([block[t]] after
    the length check, [W[t]] in the rounds) are inside the array. *)
Definition get (l : list Z) (i : Z) : Z :=
  if i <? 0 then 0 else nth (Z.to_nat i) l 0.

(** [l[i] = v] for [0 <= i <= l.length]: at [l.length] the array grows by
    one element, below it the element is replaced.  (The program only
    writes at [l.length]; writes further out, which leave holes, are not
    modelled.) *)
Definition set (l : list Z) (i : Z) (v : Z) : list Z :=
  firstn (Z.to_nat i) l ++ v :: skipn (S (Z.to_nat i)) l.

(** The values of [t] in [for (let t = lo; t < hi; t++)]. *)
Definition range (lo hi : Z) : list Z :=
  map (fun i => lo + Z.of_nat i) (seq 0 (Z.to_nat (hi - lo))).

End JS.

(** ** Errors and results *)

(** The errors the program throws, one constructor per [throw new Error(...)]
    message. *)
Inductive error : Set :=
| UnsupportedInputType (type : string) (* "unsupported input type: " + typeof input *)
| IncompleteBlock                      (* "incomplete block at the end of stream" *)
| NegativeLength                       (* "negative length" *)
| IncompleteWord                       (* "incomplete word" *)
| IncorrectBlockSize (n : Z)           (* "incorrect block size: " / "invalid block size: " *)
| StreamSize                           (* "stream size is not a multiple of the block size" *)
| NotUint32 (v : Z)                    (* "not uint32: " + value *)
| InvalidF (t : Z)                     (* "invalid f[i] number: " + t *)
| InvalidK (t : Z)                     (* "invalid K[i] number: " + t *)
| InvalidShift (times : Z)             (* "invalid left shift amount: " + times *)
| InvalidArrayLength                   (* the RangeError of [Array(z)] for a negative [z] *)
| Unmodelled.                          (* not an error of the program: see [rounds] *)

(** The error classes of the specification. *)
Definition is_invalid_round_index (e : error) : bool :=
  match e with
  | InvalidF _ | InvalidK _ => true
  | _ => false
  end.

Definition is_unsupported_input_type (e : error) : bool :=
  match e with
  | UnsupportedInputType _ => true
  | _ => false
  end.

(** A call either returns a value or throws. *)
Inductive result (A : Type) : Type :=
| Ok (a : A)
| Err (e : error).
Arguments Ok {A} a.
Arguments Err {A} e.

Definition bind {A B : Type} (m : result A) (k : A -> result B) : result B :=
  match m with
  | Ok a => k a
  | Err e => Err e
  end.

Declare Scope js_scope.
Delimit Scope js_scope with js.
Notation "x <- m ;; k" := (bind m (fun x => k))
  (at level 61, m at next level, right associativity) : js_scope.
Notation "m ;;; k" := (bind m (fun _ => k))
  (at level 61, right associativity) : js_scope.
Local Open Scope js_scope.

(** The loop [for (const x of xs) { s = body(s, x) }] over an array, in a
    plain function: the first [throw] ends it. *)
Fixpoint fold_result {S X : Type} (body : S -> X -> result S) (xs : list X) (s : S)
  : result S :=
  match xs with
  | [] => Ok s
  | x :: xs' => s' <- body s x ;; fold_result body xs' s'
  end.

(** ** Generators *)

(** A generator run to its end: the values it yielded, in order, and then
    either its return value or the error it threw.  Nothing in the program
    observes a generator except through [for ... of] and [yield*], which see
    exactly this. *)
Definition gen (Y R : Type) : Type := (list Y * result R)%type.

Definition yielded {Y R : Type} (g : gen Y R) : list Y := fst g.
Definition outcome {Y R : Type} (g : gen Y R) : result R := snd g.

Definition gen_ret {Y R : Type} (r : R) : gen Y R := ([], Ok r).
Definition gen_throw {Y R : Type} (e : error) : gen Y R := ([], Err e).
Definition yield {Y : Type} (y : Y) : gen Y unit := ([y], Ok tt).

(** Sequencing inside a generator body; [yield* g] is [g] itself in sequence. *)
Definition gen_bind {Y A B : Type} (g : gen Y A) (k : A -> gen Y B) : gen Y B :=
  match g with
  | (ys, Ok a) => let '(ys', r) := k a in (ys ++ ys', r)
  | (ys, Err e) => (ys, Err e)
  end.

(** A call of a plain function inside a generator body. *)
Definition gen_call {Y A : Type} (m : result A) : gen Y A := ([], m).

Declare Scope gen_scope.
Delimit Scope gen_scope with gen.
Notation "x <- g ;; k" := (gen_bind g (fun x => k))
  (at level 61, g at next level, right associativity) : gen_scope.
Notation "g ;;; k" := (gen_bind g (fun _ => k))
  (at level 61, right associativity) : gen_scope.

(** A loop over an array inside a generator body. *)
Fixpoint fold_gen {Y S X : Type} (body : S -> X -> gen Y S) (xs : list X) (s : S)
  : gen Y S :=
  match xs with
  | [] => gen_ret s
  | x :: xs' => gen_bind (body s x) (fold_gen body xs')
  end.

(** [for (const x of src) body] inside a generator body, [src] a generator:
    the body runs on each value [src] yields; if [src] then throws, so does
    the loop. *)
Definition gen_for_of {Y S X : Type} (src : gen X unit) (body : S -> X -> gen Y S) (s : S)
  : gen Y S :=
  gen_bind (fold_gen body (yielded src) s)
           (fun s' => match outcome src with
                      | Ok _ => gen_ret s'
                      | Err e => gen_throw e
                      end).

(** [for (const x of src) { s = body(s, x) }] in a plain function: a [throw]
    of the body ends the loop before the generator is asked for more. *)
Definition for_of {S X : Type} (src : gen X unit) (body : S -> X -> result S) (s : S)
  : result S :=
  s' <- fold_result body (yielded src) s ;;
  match outcome src with
  | Ok _ => Ok s'
  | Err e => Err e
  end.

(** What a caller gets who drains the generator into an array
    ([Array.from(g)], [[...g]]): all the values, or the error. *)
Definition drain {Y : Type} (g : gen Y unit) : result (list Y) :=
  for_of g (fun acc y => Ok (acc ++ [y])) [].

(** ** The code the two files share *)

Definition blockSizeBytes : Z := 64.
Definition wordSizeBytes : Z := 4.

Definition isUint32 (x : Z) : bool := (x >=? 0) && (x <=? 0xffffffff).

Definition checkUint32 (value : Z) : result unit :=
  if negb (isUint32 value) then Err (NotUint32 value) else Ok tt.

(** Constants K[i]. *)
Definition K (t : Z) : result Z :=
  if (t <? 0) || (t >? 79) then Err (InvalidK t)
  else if t <? 20 then Ok 0x5a827999
  else if t <? 40 then Ok 0x6ed9eba1
  else if t <? 60 then Ok 0x8f1bbcdc
  else Ok 0xca62c1d6.

(** [distribute(length)]: the bytes of [length], least significant first,
    none for zero.  The recursion is on [Math.floor(length / 256)]; the
    measure is the number of binary digits of [length]. *)
Equations distribute (length : Z) : result (list Z)
  by wf (N.size_nat (Z.to_N length)) lt :=
  distribute length with Z_lt_dec length 0 => {
    | left _ => Err NegativeLength
    | right _ with Z.eq_dec length 0 => {
        | left _ => Ok []
        | right _ => rest <- distribute (length / 256) ;; Ok ([length mod 256] ++ rest) } }.
Next Obligation.
  (* dividing a positive integer by 256 removes binary digits *)
  assert (Hle : forall (m : Z) (q : positive),
             0 <= m <= Z.pos q -> (N.size_nat (Z.to_N m) <= Pos.size_nat q)%nat).
  { intros m q [H0 H1]. destruct m as [|p|p]; simpl; try lia.
    destruct (Pos.eq_dec p q) as [->|Hne]; [lia|].
    apply Pos.size_nat_monotone. lia. }
  assert (H0 : 0 <= length / 256) by (apply Z.div_pos; lia).
  destruct length as [|p|p]; try lia.
  destruct p as [q|q|]; cbn [Z.to_N N.size_nat Pos.size_nat].
  - apply Nat.lt_succ_r, Hle. split; [assumption|].
    apply Z.div_le_upper_bound; lia.
  - apply Nat.lt_succ_r, Hle. split; [assumption|].
    apply Z.div_le_upper_bound; lia.
  - vm_compute. lia.
Qed.

(** [words(stream)]: groups of four bytes, each read most significant byte
    first.  The recursion is on [stream.slice(4)]. *)
Equations words (stream : list Z) : result (list Z)
  by wf (List.length stream) lt :=
  words stream with Z.eq_dec (Z.of_nat (List.length stream)) 0 => {
    | left _ => Ok []
    | right _ with Z_lt_dec (Z.of_nat (List.length stream)) wordSizeBytes => {
        | left _ => Err IncompleteWord
        | right _ =>
            let word :=
              fold_left (fun s byte => s * 256 + byte)
                        (firstn (Z.to_nat wordSizeBytes) stream) 0 in
            rest <- words (skipn (Z.to_nat wordSizeBytes) stream) ;;
            Ok ([word] ++ rest) } }.
Next Obligation.
  change (List.length (skipn 4 stream) < List.length stream)%nat.
  rewrite length_skipn. unfold wordSizeBytes in *. lia.
Qed.

Section Core.

(** [uint32] is the one function the two files write differently. *)
Variable uint32 : Z -> Z.

(** Logical functions f[i]. *)
Definition f (t B C D : Z) : result Z :=
  checkUint32 B ;;; checkUint32 C ;;; checkUint32 D ;;;
  if (t <? 0) || (t >? 79) then Err (InvalidF t)
  else if t <? 20 then
    Ok (uint32 (JS.bit_or (JS.bit_and B C) (JS.bit_and (JS.bit_not B) D)))
  else if t <? 40 then
    Ok (uint32 (JS.bit_xor (JS.bit_xor B C) D))
  else if t <? 60 then
    Ok (uint32 (JS.bit_or (JS.bit_or (JS.bit_and B C) (JS.bit_and B D))
                          (JS.bit_and C D)))
  else
    Ok (uint32 (JS.bit_xor (JS.bit_xor B C) D)).

(** Rotate-left function. *)
Definition ROTL (times value : Z) : result Z :=
  if negb (isUint32 value) then Err (NotUint32 value)
  else if (times <? 0) || (times >=? 32) then Err (InvalidShift times)
  else Ok (uint32 (JS.bit_or (uint32 (JS.shift_left value times))
                             (JS.shift_right_unsigned value (32 - times)))).

(** [addVec(xs, ys)].  The program calls it with two arrays of five words.
    Were [ys] the shorter, JavaScript would add [undefined] and produce
    NaN, which the model does not represent: the model stops there.  The
    sum [x + y] is that of the source as long as it is exact in doubles,
    below 2^53. *)
Fixpoint addVec (xs ys : list Z) : list Z :=
  match xs with
  | [] => []
  | x :: restx =>
      match ys with
      | y :: resty => uint32 (x + y) :: addVec restx resty
      | [] => []
      end
  end.

(** The message schedule of [digest]: the two loops that fill [W]. *)
Definition schedule (block : list Z) : result (list Z) :=
  let W := [] in
  let W := fold_left (fun W t => JS.set W t (JS.get block t)) (JS.range 0 16) W in
  fold_result
    (fun W t =>
       w <- ROTL 1 (uint32 (JS.bit_xor
                              (JS.bit_xor
                                 (JS.bit_xor (JS.get W (t - 3)) (JS.get W (t - 8)))
                                 (JS.get W (t - 14)))
                              (JS.get W (t - 16)))) ;;
       let W := JS.set W t w in
       checkUint32 (JS.get W t) ;;;
       Ok W)
    (JS.range 16 80) W.

(** One turn of the loop of rounds of [digest], on the variables
    [(a, b, c, d, e)].  The sum of four words and [W[t]] is that of the
    source as long as it is exact in doubles: for [W[t]] below 2^52, which
    covers words and every number [words] parses from character codes. *)
Definition round (W : list Z) (v : Z * Z * Z * Z * Z) (t : Z)
  : result (Z * Z * Z * Z * Z) :=
  let '(a, b, c, d, e) := v in
  r <- ROTL 5 a ;;
  ft <- f t b c d ;;
  kt <- K t ;;
  let T := uint32 (r + ft + e + kt + JS.get W t) in
  let e := d in
  let d := c in
  c <- ROTL 30 b ;;
  let b := a in
  let a := T in
  checkUint32 c ;;;
  Ok (a, b, c, d, e).

(** The body of [digest] from [const W = []] to the end of the loop of
    rounds; the result is the final [[a, b, c, d, e]].  The program passes
    a [sum] of five words; for another length JavaScript would compute with
    [undefined], which the model does not follow ([Unmodelled]). *)
Definition rounds (block sum : list Z) : result (list Z) :=
  W <- schedule block ;;
  match sum with
  | [a; b; c; d; e] =>
      v <- fold_result (round W) (JS.range 0 80) (a, b, c, d, e) ;;
      let '(a, b, c, d, e) := v in
      Ok [a; b; c; d; e]
  | _ => Err Unmodelled
  end.

End Core.

(** The five words a checksum starts from. *)
Definition init : list Z :=
  [0x67452301; 0xefcdab89; 0x98badcfe; 0x10325476; 0xc3d2e1f0].

(** ** [src/sha1.js]: the version with generators *)

Module Iter.

(** [uint32(v)]: [max] is added to a negative [v] until it is not negative
    any more.  The measure is the number of additions left.  The program
    passes values from -2^31 (what a bit operator returns) to sums below
    2^42, where a negative value takes one addition.  The definition follows
    the source for [v] from -2^31 to below 2^53; on integers far below,
    the source makes one call per addition and adds in doubles, which [Z]
    does not follow: properties of [uint32] are stated within that range. *)
Equations uint32 (v : Z) : Z by wf (Z.to_nat (- v / (0xffffffff + 1) + 1)) lt :=
  uint32 v with Z_lt_dec v 0 => {
    | left _ => uint32 (v + (0xffffffff + 1))
    | right _ => v mod (0xffffffff + 1) }.
Next Obligation.
  change (0xffffffff + 1) with 4294967296.
  replace (- (v + 4294967296)) with (- v + (-1) * 4294967296) by lia.
  rewrite Z.div_add by lia.
  assert (0 <= - v / 4294967296) by (apply Z.div_pos; lia). lia.
Qed.

Definition f := f uint32.
Definition ROTL := ROTL uint32.
Definition addVec := addVec uint32.

(** Produces list of bytes from the given input. *)
Definition bytes (input : JS.value) : gen Z unit :=
  match input with
  | JS.Str s => fold_gen (fun _ c => yield (JS.charCode c)) s tt
  | _ => gen_throw (UnsupportedInputType (JS.typeof input))
  end.

(** Parses the bytes list into a list of 16-word blocks. *)
Definition blocks (stream : gen Z unit) : gen (list Z) unit :=
  (buf <- gen_for_of stream
            (fun buf byte =>
               let buf := buf ++ [byte] in
               if Z.of_nat (List.length buf) =? blockSizeBytes
               then (ws <- gen_call (words buf) ;; yield ws ;;; gen_ret [])
               else gen_ret buf)
            [] ;;
   if negb (Z.of_nat (List.length buf) =? 0)
   then gen_throw IncompleteBlock
   else gen_ret tt)%gen.

Definition addZeros (length : Z) : gen Z unit :=
  let n := JS.ceil_div (length + 9) blockSizeBytes in
  let z := blockSizeBytes * n - 9 - length in
  fold_gen (fun _ _ => yield 0) (JS.range 0 z) tt.

Definition addLength (length : Z) : gen Z unit :=
  (seq <- gen_call (d <- distribute (length * 8) ;;
                    Ok (rev (firstn 8 (d ++ repeat 0 8))))%js ;;
   fold_gen (fun _ byte => yield byte) seq tt)%gen.

(** Pads the message to ensure that the total length is a multiple of 64
    bytes: | message | eof | zeros | length |. *)
Definition padMessage (message : gen Z unit) : gen Z unit :=
  (length <- gen_for_of message
               (fun length byte => yield byte ;;; gen_ret (length + 1)) 0 ;;
   yield 128 ;;;
   addZeros length ;;;
   addLength length)%gen.

Definition digest (block sum : list Z) : result (list Z) :=
  if negb (Z.of_nat (List.length block) =? blockSizeBytes / wordSizeBytes)
  then Err (IncorrectBlockSize (Z.of_nat (List.length block)))
  else
    abcde <- rounds uint32 block sum ;;
    Ok (addVec sum abcde).

Definition sha1 (message : JS.value) : result (list string) :=
  let stream := padMessage (bytes message) in
  hash <- for_of (blocks stream) (fun hash block => digest block hash) init ;;
  Ok (map JS.toString16 hash).

(** [sha1(val).join(" ")], the string that [check] compares with the
    expected one. *)
Definition got (val : JS.value) : result string :=
  hash <- sha1 val ;;
  Ok (JS.join " " hash).

(** The table of [src/sha1.js]: inputs and the digests expected for them.
    The last input is one million times the letter a. *)
Definition table : list (JS.value * string) :=
  [ (JS.Str (JS.of_string "abc"),
     "a9993e36 4706816a ba3e2571 7850c26c 9cd0d89d"%string);
    (JS.Str (JS.of_string ""),
     "da39a3ee 5e6b4b0d 3255bfef 95601890 afd80709"%string);
    (JS.Str (JS.of_string "abcdbcdecdefdefgefghfghighijhijkijkljklmklmnlmnomnopnopq"),
     "84983e44 1c3bd26e baae4aa1 f95129e5 e54670f1"%string);
    (JS.Str (JS.of_string "abcdefghbcdefghicdefghijdefghijkefghijklfghijklmghijklmnhijklmnoijklmnopjklmnopqklmnopqrlmnopqrsmnopqrstnopqrstu"),
     "a49b2446 a02c645b f419f995 b6709125 3a04a259"%string);
    (JS.Str (repeat (JS.of_ascii "a") (Z.to_nat 1000000)),
     "34aa973c d4c4daa4 f61eeb2b dbad2731 6534016f"%string) ].

(** [check()] on a table: [map] digests every entry and logs a line
    [(got == hash, got, hash)] for it, then [reduce] takes the conjunction.
    The lines logged are the values yielded, in the sense of [gen]; a
    [throw] of [sha1] ends the run after the lines logged so far. *)
Definition check (table : list (JS.value * string))
  : gen (bool * string * string) bool :=
  (results <- fold_gen
                (fun results '(val, hash) =>
                   got <- gen_call (got val) ;;
                   yield (String.eqb got hash, got, hash) ;;;
                   gen_ret (results ++ [String.eqb got hash]))
                table [] ;;
   gen_ret (fold_left (fun r i => r && i) results true))%gen.

End Iter.

(** ** [src/unnamed/part_000]: the version with arrays and recursion *)

Module Rec.

Definition modulo (a b : Z) : Z := a - (a / b) * b.

Definition ToUint32 (x : Z) : Z := modulo x (2 ^ 32).

(** [uint32(v)] returns [ToUint32(v)]; the lines after the [return] are
    never run. *)
Definition uint32 (v : Z) : Z := ToUint32 v.

Definition f := f uint32.
Definition ROTL := ROTL uint32.
Definition addVec := addVec uint32.

(** Produces list of bytes from the given input. *)
Definition bytes (input : JS.value) : result (list Z) :=
  match input with
  | JS.Str s => Ok (map JS.charCode s)
  | _ => Err (UnsupportedInputType (JS.typeof input))
  end.

(** Parses the bytes list into a list of 16-word blocks.  The recursion is
    on [stream.slice(64)]. *)
Equations blocks (stream : list Z) : result (list (list Z))
  by wf (List.length stream) lt :=
  blocks stream with Z.eq_dec (Z.of_nat (List.length stream)) 0 => {
    | left _ => Ok []
    | right _ with Z_lt_dec (Z.of_nat (List.length stream)) blockSizeBytes => {
        | left _ => Err IncompleteBlock
        | right _ =>
            ws <- words (firstn (Z.to_nat blockSizeBytes) stream) ;;
            rest <- blocks (skipn (Z.to_nat blockSizeBytes) stream) ;;
            Ok ([ws] ++ rest) } }.
Next Obligation.
  change (List.length (skipn 64 stream) < List.length stream)%nat.
  rewrite length_skipn. unfold blockSizeBytes in *. lia.
Qed.

Definition addEof (message : list Z) : list Z := message ++ [128].

(** [Array(z)] throws a RangeError for a negative [z]. *)
Definition addZeros (stream : list Z) (length : Z) : result (list Z) :=
  let n := JS.ceil_div (length + 9) blockSizeBytes in
  let z := blockSizeBytes * n - 9 - length in
  if z <? 0 then Err InvalidArrayLength
  else Ok (stream ++ repeat 0 (Z.to_nat z)).

Definition addLength (stream : list Z) (length : Z) : result (list Z) :=
  d <- distribute (length * 8) ;;
  let seq := rev (firstn 8 (d ++ repeat 0 8)) in
  Ok (stream ++ seq).

(** | message | eof | zeros | length | *)
Definition padMessage (message : list Z) : result (list Z) :=
  let length := Z.of_nat (List.length message) in
  s <- addZeros (addEof message) length ;;
  addLength s length.

(** [digest(blocks, sum)]: the blocks one after the other, each checked
    ([block.forEach(checkUint32)]) and then run through the rounds. *)
Fixpoint digest (blocks : list (list Z)) (sum : list Z) : result (list Z) :=
  match blocks with
  | [] => Ok sum
  | block :: rest =>
      if negb (Z.of_nat (List.length block) =? 16)
      then Err (IncorrectBlockSize (Z.of_nat (List.length block)))
      else
        fold_result (fun _ w => checkUint32 w) block tt ;;;
        abcde <- rounds uint32 block sum ;;
        digest rest (addVec sum abcde)
  end.

Definition sha1 (message : JS.value) : result (list string) :=
  b <- bytes message ;;
  stream <- padMessage b ;;
  if negb (Z.of_nat (List.length stream) mod blockSizeBytes =? 0)
  then Err StreamSize
  else
    bs <- blocks stream ;;
    hash <- digest bs init ;;
    Ok (map JS.toString16 hash).

End Rec.

(** ** The algorithm as the specification words it *)

Module Spec.

(** A word is an unsigned 32-bit integer, a byte an integer in [0, 255]. *)
Definition is_word (x : Z) : Prop := 0 <= x < 2 ^ 32.
Definition is_byte (x : Z) : Prop := 0 <= x < 256.

Definition words5 (v : Z * Z * Z * Z * Z) : Prop :=
  let '(a, b, c, d, e) := v in
  is_word a /\ is_word b /\ is_word c /\ is_word d /\ is_word e.

(** ROTL(n, w): the word [w] rotated left by [n] bits, the bits carried out
    at the high end wrapping into the low end. *)
Definition rotl (n w : Z) : Z :=
  Z.lor (Z.shiftl w n mod 2 ^ 32) (Z.shiftr w (32 - n)).

(** Sum and complement of words, wrapping to 32 bits. *)
Definition add32 (x y : Z) : Z := (x + y) mod 2 ^ 32.
Definition not32 (x : Z) : Z := Z.lnot x mod 2 ^ 32.

(** The selector functions: choice, parity, majority. *)
Definition Ch (B C D : Z) : Z := Z.lor (Z.land B C) (Z.land (not32 B) D).
Definition Parity (B C D : Z) : Z := Z.lxor (Z.lxor B C) D.
Definition Maj (B C D : Z) : Z :=
  Z.lor (Z.lor (Z.land B C) (Z.land B D)) (Z.land C D).

Definition f (t : nat) (B C D : Z) : Z :=
  if (t <? 20)%nat then Ch B C D
  else if (t <? 40)%nat then Parity B C D
  else if (t <? 60)%nat then Maj B C D
  else Parity B C D.

Definition K (t : nat) : Z :=
  if (t <? 20)%nat then 0x5a827999
  else if (t <? 40)%nat then 0x6ed9eba1
  else if (t <? 60)%nat then 0x8f1bbcdc
  else 0xca62c1d6.

(** The message schedule: the block's 16 words, then
    W[t] = ROTL1(W[t-3] xor W[t-8] xor W[t-14] xor W[t-16]). *)
Definition next_word (W : list Z) : Z :=
  let t := List.length W in
  rotl 1 (Z.lxor (Z.lxor (Z.lxor (nth (t - 3) W 0) (nth (t - 8) W 0))
                         (nth (t - 14) W 0))
                 (nth (t - 16) W 0)).

Fixpoint expand (n : nat) (W : list Z) : list Z :=
  match n with
  | O => W
  | S n' => let W' := expand n' W in W' ++ [next_word W']
  end.

Definition schedule (block : list Z) : list Z := expand 64 block.

(** Round [t]: T = ROTL5(a) + f(t,b,c,d) + e + K(t) + W[t] (mod 2^32),
    then e=d; d=c; c=ROTL30(b); b=a; a=T. *)
Definition round (W : list Z) (t : nat) (v : Z * Z * Z * Z * Z)
  : Z * Z * Z * Z * Z :=
  let '(a, b, c, d, e) := v in
  let T := (rotl 5 a + f t b c d + e + K t + nth t W 0) mod 2 ^ 32 in
  (T, a, rotl 30 b, c, d).

(** The variables after rounds 0 .. n-1. *)
Fixpoint rounds (n : nat) (W : list Z) (v : Z * Z * Z * Z * Z)
  : Z * Z * Z * Z * Z :=
  match n with
  | O => v
  | S n' => round W n' (rounds n' W v)
  end.

(** The new state: the old one plus the variables after 80 rounds,
    word by word. *)
Definition update (W S : list Z) : list Z :=
  match S with
  | [s0; s1; s2; s3; s4] =>
      let '(a, b, c, d, e) := rounds 80 W (s0, s1, s2, s3, s4) in
      [add32 s0 a; add32 s1 b; add32 s2 c; add32 s3 d; add32 s4 e]
  | _ => S
  end.

Definition compress (S block : list Z) : list Z := update (schedule block) S.

(** The 8-byte big-endian encoding of [n]. *)
Definition be64 (n : Z) : list Z :=
  map (fun i => (n / 256 ^ (7 - Z.of_nat i)) mod 256) (seq 0 8).

(** The value of a sequence of bytes read most significant byte first. *)
Definition be_value (bs : list Z) : Z :=
  fold_left (fun acc b => acc * 256 + b) bs 0.

(** The least [k >= 0] with [L + 1 + k + 8] a multiple of 64. *)
Definition zero_count (L : Z) : Z := (- (L + 9)) mod 64.

(** message || 0x80 || 0^k || len64 *)
Definition pad (m : list Z) : list Z :=
  let L := Z.of_nat (List.length m) in
  m ++ [0x80] ++ repeat 0 (Z.to_nat (zero_count L)) ++ be64 (L * 8).

(** The consecutive chunks of [n] elements of [l], in order. *)
Definition chunks {A : Type} (n : nat) (l : list A) : list (list A) :=
  map (fun k => firstn n (skipn (k * n) l)) (seq 0 (List.length l / n)).

(** A group of four bytes as a word, most significant byte first. *)
Definition be32 (bs : list Z) : Z :=
  nth 0 bs 0 * 2 ^ 24 + nth 1 bs 0 * 2 ^ 16 + nth 2 bs 0 * 2 ^ 8 + nth 3 bs 0.

(** The blocks of a padded stream: 64-byte chunks, each as 16 words. *)
Definition parse (stream : list Z) : list (list Z) :=
  map (fun chunk => map be32 (chunks 4 chunk)) (chunks 64 stream).

(** The digest of a byte sequence: the state folded over the blocks. *)
Definition sha1_words (m : list Z) : list Z :=
  fold_left compress (parse (pad m)) init.

(** A block with every entry cut to its low 32 bits. *)
Definition low32 (block : list Z) : list Z := map (fun w => w mod 2 ^ 32) block.

End Spec.

(** * Properties *)

(** ** Results and generators *)

Lemma bind_Ok {A B : Type} (m : result A) (k : A -> result B) (a : A) :
  m = Ok a -> bind m k = k a.
Proof. intros ->. reflexivity. Qed.

Lemma fold_result_app {S X : Type} (body : S -> X -> result S) (xs ys : list X) (s : S) :
  fold_result body (xs ++ ys) s =
  (s' <- fold_result body xs s ;; fold_result body ys s').
Proof.
  revert s. induction xs as [|x xs IH]; intros s; simpl; [reflexivity|].
  destruct (body s x); simpl; [apply IH | reflexivity].
Qed.

(** A loop that yields each element of an array yields the array. *)
Lemma fold_gen_yield {X Y : Type} (h : X -> Y) (xs : list X) :
  fold_gen (fun _ x => yield (h x)) xs tt = (map h xs, Ok tt).
Proof.
  induction xs as [|x xs IH]; simpl; [reflexivity|].
  rewrite IH. reflexivity.
Qed.

Lemma range_length (lo hi : Z) :
  List.length (JS.range lo hi) = Z.to_nat (hi - lo).
Proof. unfold JS.range. now rewrite length_map, length_seq. Qed.

Lemma range_nat (n : nat) :
  JS.range 0 (Z.of_nat n) = map Z.of_nat (seq 0 n).
Proof.
  unfold JS.range. rewrite Z.sub_0_r, Nat2Z.id. apply map_ext. intros; lia.
Qed.

(** ** [uint32] reduces modulo 2^32, in both files *)

Lemma Iter_uint32_mod (v : Z) : Iter.uint32 v = v mod 2 ^ 32.
Proof.
  funelim (Iter.uint32 v).
  - rewrite H. change (0xffffffff + 1) with (1 * 2 ^ 32).
    apply Z.mod_add. lia.
  - reflexivity.
Qed.

Lemma Rec_uint32_mod (v : Z) : Rec.uint32 v = v mod 2 ^ 32.
Proof.
  unfold Rec.uint32, Rec.ToUint32, Rec.modulo.
  rewrite Z.mod_eq by lia. lia.
Qed.

(** ** The 32-bit conversions of the bit operators *)

Lemma isUint32_iff (x : Z) : isUint32 x = true <-> Spec.is_word x.
Proof.
  unfold isUint32, Spec.is_word. rewrite andb_true_iff, Z.geb_le, Z.leb_le.
  change (2 ^ 32) with 4294967296. change 0xffffffff with 4294967295. lia.
Qed.

Lemma isUint32_word (x : Z) : Spec.is_word x -> isUint32 x = true.
Proof. apply isUint32_iff. Qed.

Lemma checkUint32_word (x : Z) : Spec.is_word x -> checkUint32 x = Ok tt.
Proof. intros H. unfold checkUint32. now rewrite isUint32_word. Qed.

Lemma mod32_word (x : Z) : Spec.is_word (x mod 2 ^ 32).
Proof. apply Z.mod_pos_bound. lia. Qed.

Lemma word_mod32 (x : Z) : Spec.is_word x -> x mod 2 ^ 32 = x.
Proof. intros H. apply Z.mod_small. exact H. Qed.

Lemma testbit_word_high (x i : Z) :
  Spec.is_word x -> 32 <= i -> Z.testbit x i = false.
Proof.
  intros Hx Hi. rewrite <- (word_mod32 x Hx).
  apply Z.mod_pow2_bits_high. lia.
Qed.

Lemma ToInt32_mod (x : Z) : JS.ToInt32 x mod 2 ^ 32 = x mod 2 ^ 32.
Proof.
  unfold JS.ToInt32. cbv zeta.
  destruct (x mod 2 ^ 32 >=? 2 ^ 31).
  - replace (x mod 2 ^ 32 - 2 ^ 32) with (x mod 2 ^ 32 + (-1) * 2 ^ 32) by lia.
    rewrite Z.mod_add by lia. apply Z.mod_mod. lia.
  - apply Z.mod_mod. lia.
Qed.

Lemma testbit_ToInt32 (x i : Z) :
  i < 32 -> Z.testbit (JS.ToInt32 x) i = Z.testbit x i.
Proof.
  intros Hi. destruct (Z.ltb_spec i 0) as [Hneg|Hpos].
  - now rewrite !Z.testbit_neg_r.
  - rewrite <- (Z.mod_pow2_bits_low (JS.ToInt32 x) 32 i) by lia.
    rewrite ToInt32_mod. apply Z.mod_pow2_bits_low. lia.
Qed.

Lemma shift_count (n : Z) : 0 <= n < 32 -> Z.land (JS.ToUint32 n) 31 = n.
Proof.
  intros Hn. unfold JS.ToUint32. rewrite Z.mod_small by lia.
  change 31 with (Z.ones 5). rewrite Z.land_ones by lia.
  apply Z.mod_small. change (2 ^ 5) with 32. lia.
Qed.

Lemma shift_guard (times : Z) :
  0 <= times < 32 -> (times <? 0) || (times >=? 32) = false.
Proof.
  intros H. apply orb_false_iff. split.
  - apply Z.ltb_ge. lia.
  - rewrite Z.geb_leb. apply Z.leb_gt. lia.
Qed.

Lemma round_guard (t : Z) :
  0 <= t <= 79 -> (t <? 0) || (t >? 79) = false.
Proof.
  intros H. apply orb_false_iff. split.
  - apply Z.ltb_ge. lia.
  - rewrite Z.gtb_ltb. apply Z.ltb_ge. lia.
Qed.

(** Two integers in [0, 2^32) with the same low 32 bits are equal. *)
Lemma word_bits_eq (x y : Z) :
  Spec.is_word x -> Spec.is_word y ->
  (forall i, 0 <= i < 32 -> Z.testbit x i = Z.testbit y i) -> x = y.
Proof.
  intros Hx Hy H. apply Z.bits_inj'. intros i Hi.
  destruct (Z.ltb_spec i 32).
  - apply H. lia.
  - now rewrite !testbit_word_high.
Qed.

Lemma lor_word (x y : Z) : Spec.is_word x -> Spec.is_word y -> Spec.is_word (Z.lor x y).
Proof.
  intros Hx Hy. rewrite <- (word_mod32 x Hx), <- (word_mod32 y Hy).
  replace (Z.lor (x mod 2 ^ 32) (y mod 2 ^ 32)) with (Z.lor x y mod 2 ^ 32).
  - apply mod32_word.
  - rewrite <- !Z.land_ones by lia. apply Z.land_lor_distr_l.
Qed.

Lemma shiftr_word (x n : Z) : Spec.is_word x -> 0 <= n -> Spec.is_word (Z.shiftr x n).
Proof.
  intros [H0 H1] Hn. rewrite Z.shiftr_div_pow2 by lia. split.
  - apply Z.div_pos; lia.
  - apply Z.le_lt_trans with x; [|assumption].
    apply Z.div_le_upper_bound; [lia|].
    assert (1 <= 2 ^ n) by (apply Z.pow_le_mono_r with (b := 0); lia). nia.
Qed.

Lemma rotl_word (n w : Z) : Spec.is_word w -> n <= 32 -> Spec.is_word (Spec.rotl n w).
Proof.
  intros Hw Hn. apply lor_word; [apply mod32_word | apply shiftr_word; [assumption | lia]].
Qed.

(** Bit [i] of the rotated word is bit [i - n] of the word, counted modulo 32. *)
Lemma rotl_testbit (n w i : Z) :
  Spec.is_word w -> 0 < n < 32 -> 0 <= i < 32 ->
  Z.testbit (Spec.rotl n w) i = Z.testbit w ((i - n) mod 32).
Proof.
  intros Hw Hn Hi. unfold Spec.rotl.
  rewrite Z.lor_spec, Z.mod_pow2_bits_low, Z.shiftl_spec, Z.shiftr_spec by lia.
  destruct (Z.ltb_spec i n) as [Hlt|Hge].
  - rewrite (Z.testbit_neg_r w (i - n)) by lia. rewrite orb_false_l.
    f_equal. replace (i - n) with (i + (32 - n) + (-1) * 32) by lia.
    rewrite Z.mod_add by lia. symmetry. apply Z.mod_small. lia.
  - rewrite (testbit_word_high w (i + (32 - n))) by (assumption || lia).
    rewrite orb_false_r. f_equal. symmetry. apply Z.mod_small. lia.
Qed.

Section CoreFacts.

Variable uint32 : Z -> Z.
Hypothesis uint32_mod : forall v, uint32 v = v mod 2 ^ 32.

Lemma uint32_word (v : Z) : Spec.is_word (uint32 v).
Proof. rewrite uint32_mod. apply mod32_word. Qed.

Lemma uint32_testbit (v i : Z) :
  0 <= i < 32 -> Z.testbit (uint32 v) i = Z.testbit v i.
Proof. intros Hi. rewrite uint32_mod. apply Z.mod_pow2_bits_low. lia. Qed.

(** [ROTL] on a word, for a rotation amount the guard lets through. *)
Lemma ROTL_defined (times value : Z) :
  Spec.is_word value -> 0 <= times < 32 ->
  exists r, ROTL uint32 times value = Ok r /\ Spec.is_word r.
Proof.
  intros Hv Ht. unfold ROTL. rewrite isUint32_word by assumption. cbn [negb].
  rewrite shift_guard by lia.
  eexists. split; [reflexivity | apply uint32_word].
Qed.

Lemma ROTL_rotl (times value : Z) :
  Spec.is_word value -> 0 < times < 32 ->
  ROTL uint32 times value = Ok (Spec.rotl times value).
Proof.
  intros Hv Ht. unfold ROTL. rewrite isUint32_word by assumption. cbn [negb].
  rewrite shift_guard by lia.
  f_equal. apply word_bits_eq; [apply uint32_word | apply rotl_word; [assumption|lia] |].
  intros i Hi. unfold Spec.rotl, JS.bit_or, JS.shift_left, JS.shift_right_unsigned.
  rewrite uint32_testbit by lia.
  rewrite !Z.lor_spec, !testbit_ToInt32, uint32_testbit, testbit_ToInt32 by lia.
  rewrite !shift_count by lia. unfold JS.ToUint32.
  rewrite (word_mod32 value Hv).
  rewrite Z.mod_pow2_bits_low by lia.
  f_equal. rewrite !Z.shiftl_spec by lia.
  destruct (Z.ltb_spec (i - times) 0).
  - now rewrite !Z.testbit_neg_r.
  - apply testbit_ToInt32. lia.
Qed.

(** Rotating by zero bits returns the word. *)
Lemma ROTL_zero (value : Z) :
  Spec.is_word value -> ROTL uint32 0 value = Ok value.
Proof.
  intros Hv. unfold ROTL. rewrite isUint32_word by assumption. cbn [negb].
  rewrite shift_guard by lia.
  f_equal. apply word_bits_eq; [apply uint32_word | assumption |].
  intros i Hi. unfold JS.bit_or, JS.shift_left, JS.shift_right_unsigned.
  rewrite uint32_testbit by lia.
  rewrite !Z.lor_spec, !testbit_ToInt32, uint32_testbit, testbit_ToInt32 by lia.
  change (Z.land (JS.ToUint32 0) 31) with 0.
  change (Z.land (JS.ToUint32 (32 - 0)) 31) with 0.
  rewrite Z.shiftl_0_r, Z.shiftr_0_r. unfold JS.ToUint32.
  rewrite (word_mod32 value Hv), testbit_ToInt32 by lia.
  apply orb_diag.
Qed.

(** The bits of a JavaScript bit expression, below and above bit 32. *)
Ltac low_bits :=
  unfold JS.bit_or, JS.bit_and, JS.bit_xor, JS.bit_not, Spec.not32;
  repeat first
    [ rewrite Z.lor_spec | rewrite Z.land_spec | rewrite Z.lxor_spec
    | rewrite uint32_testbit by lia
    | rewrite testbit_ToInt32 by lia
    | rewrite Z.lnot_spec by lia
    | rewrite Z.mod_pow2_bits_low by lia ].

Ltac high_bits :=
  unfold Spec.not32;
  repeat first
    [ rewrite Z.lor_spec | rewrite Z.land_spec | rewrite Z.lxor_spec
    | rewrite Z.mod_pow2_bits_high by lia
    | rewrite testbit_word_high by (assumption || lia) ].

Ltac word_eq :=
  apply Z.bits_inj'; let i := fresh "i" in let Hi := fresh "Hi" in
  intros i Hi; destruct (Z.ltb_spec i 32);
  [ low_bits; try reflexivity
  | rewrite (testbit_word_high (uint32 _)) by (apply uint32_word || lia);
    high_bits; try reflexivity ].

Lemma f_choice (B C D : Z) :
  Spec.is_word B -> Spec.is_word C -> Spec.is_word D ->
  uint32 (JS.bit_or (JS.bit_and B C) (JS.bit_and (JS.bit_not B) D)) = Spec.Ch B C D.
Proof. intros HB HC HD. unfold Spec.Ch. word_eq. Qed.

Lemma f_parity (B C D : Z) :
  Spec.is_word B -> Spec.is_word C -> Spec.is_word D ->
  uint32 (JS.bit_xor (JS.bit_xor B C) D) = Spec.Parity B C D.
Proof. intros HB HC HD. unfold Spec.Parity. word_eq. Qed.

Lemma f_majority (B C D : Z) :
  Spec.is_word B -> Spec.is_word C -> Spec.is_word D ->
  uint32 (JS.bit_or (JS.bit_or (JS.bit_and B C) (JS.bit_and B D)) (JS.bit_and C D))
  = Spec.Maj B C D.
Proof. intros HB HC HD. unfold Spec.Maj. word_eq. Qed.

Lemma xor4_words (x y z w : Z) :
  Spec.is_word x -> Spec.is_word y -> Spec.is_word z -> Spec.is_word w ->
  uint32 (JS.bit_xor (JS.bit_xor (JS.bit_xor x y) z) w)
  = Z.lxor (Z.lxor (Z.lxor x y) z) w.
Proof. intros Hx Hy Hz Hw. word_eq. Qed.

Lemma ltb_to_nat (t n : Z) :
  0 <= t -> 0 <= n -> (Z.to_nat t <? Z.to_nat n)%nat = (t <? n).
Proof.
  intros Ht Hn. destruct (Z.ltb_spec t n).
  - apply Nat.ltb_lt. lia.
  - apply Nat.ltb_ge. lia.
Qed.

(** [f] and [K] in the rounds' range of [t]. *)
Lemma f_spec (t B C D : Z) :
  0 <= t <= 79 -> Spec.is_word B -> Spec.is_word C -> Spec.is_word D ->
  f uint32 t B C D = Ok (Spec.f (Z.to_nat t) B C D).
Proof.
  intros Ht HB HC HD. unfold f, Spec.f.
  rewrite !checkUint32_word by assumption. cbn [bind].
  rewrite round_guard by assumption.
  change 60%nat with (Z.to_nat 60). change 40%nat with (Z.to_nat 40).
  change 20%nat with (Z.to_nat 20). rewrite !ltb_to_nat by lia.
  destruct (t <? 20); [now rewrite f_choice|].
  destruct (t <? 40); [now rewrite f_parity|].
  destruct (t <? 60); [now rewrite f_majority|].
  now rewrite f_parity.
Qed.

Lemma K_spec (t : Z) : 0 <= t <= 79 -> K t = Ok (Spec.K (Z.to_nat t)).
Proof.
  intros Ht. unfold K, Spec.K. rewrite round_guard by assumption.
  change 60%nat with (Z.to_nat 60). change 40%nat with (Z.to_nat 40).
  change 20%nat with (Z.to_nat 20). rewrite !ltb_to_nat by lia.
  destruct (t <? 20); [reflexivity|].
  destruct (t <? 40); [reflexivity|].
  destruct (t <? 60); reflexivity.
Qed.

Lemma Spec_f_word (t : nat) (B C D : Z) : 
  Spec.is_word B -> Spec.is_word C -> Spec.is_word D -> Spec.is_word (Spec.f t B C D).
Proof.
  intros HB HC HD. unfold Spec.f.
  destruct (t <? 20)%nat; [rewrite <- f_choice by assumption; apply uint32_word|].
  destruct (t <? 40)%nat; [rewrite <- f_parity by assumption; apply uint32_word|].
  destruct (t <? 60)%nat; [rewrite <- f_majority by assumption; apply uint32_word|].
  rewrite <- f_parity by assumption; apply uint32_word.
Qed.

(** *** The message schedule *)

Lemma set_at_length (W : list Z) (v : Z) :
  JS.set W (Z.of_nat (List.length W)) v = W ++ [v].
Proof.
  unfold JS.set. rewrite Nat2Z.id, firstn_all.
  rewrite skipn_all2 by lia. reflexivity.
Qed.

Lemma get_nat (W : list Z) (n : nat) : JS.get W (Z.of_nat n) = nth n W 0.
Proof.
  unfold JS.get. destruct (Z.ltb_spec (Z.of_nat n) 0); [lia|].
  now rewrite Nat2Z.id.
Qed.

Lemma get_word (W : list Z) (i : Z) :
  Forall Spec.is_word W -> Spec.is_word (JS.get W i).
Proof.
  intros HW. unfold JS.get. destruct (i <? 0); [split; lia|].
  destruct (nth_in_or_default (Z.to_nat i) W 0) as [Hin | ->]; [|split; lia].
  rewrite Forall_forall in HW. now apply HW.
Qed.

(** The first loop copies the first 16 entries of the block. *)
Lemma schedule_copy (block : list Z) (n : nat) (W : list Z) :
  fold_left (fun W t => JS.set W t (JS.get block t))
            (map Z.of_nat (seq (List.length W) n)) W
  = W ++ map (fun t => nth t block 0) (seq (List.length W) n).
Proof.
  revert W. induction n as [|n IH]; intros W; simpl.
  - now rewrite app_nil_r.
  - rewrite set_at_length, get_nat.
    replace (S (List.length W)) with (List.length (W ++ [nth (List.length W) block 0]))
      by (rewrite length_app; simpl; lia).
    rewrite IH, <- app_assoc. reflexivity.
Qed.

Lemma nth_seq_block (block : list Z) :
  map (fun t => nth t block 0) (seq 0 (List.length block)) = block.
Proof.
  induction block as [|x block IH]; simpl; [reflexivity|].
  f_equal. rewrite <- seq_shift, map_map. exact IH.
Qed.

(** One turn of the second loop appends one word. *)
Lemma schedule_step (W : list Z) :
  let t := Z.of_nat (List.length W) in
  exists w,
    (w0 <- ROTL uint32 1
             (uint32 (JS.bit_xor
                        (JS.bit_xor
                           (JS.bit_xor (JS.get W (t - 3)) (JS.get W (t - 8)))
                           (JS.get W (t - 14)))
                        (JS.get W (t - 16)))) ;;
     let W' := JS.set W t w0 in
     checkUint32 (JS.get W' t) ;;; Ok W') = Ok (W ++ [w])
    /\ Spec.is_word w
    /\ (Forall Spec.is_word W -> (16 <= List.length W)%nat -> w = Spec.next_word W).
Proof.
  intros t. subst t.
  set (x := uint32 _).
  assert (Hx : Spec.is_word x) by apply uint32_word.
  exists (Spec.rotl 1 x).
  assert (Hr : Spec.is_word (Spec.rotl 1 x)) by (apply rotl_word; [assumption|lia]).
  rewrite ROTL_rotl by (assumption || lia). cbn [bind].
  rewrite set_at_length, get_nat, nth_middle.
  rewrite checkUint32_word by assumption. cbn [bind].
  split; [reflexivity|]. split; [assumption|].
  intros HW Hlen. unfold Spec.next_word. f_equal. subst x.
  rewrite xor4_words by (apply get_word; assumption).
  replace (Z.of_nat (List.length W) - 3) with (Z.of_nat (List.length W - 3)) by lia.
  replace (Z.of_nat (List.length W) - 8) with (Z.of_nat (List.length W - 8)) by lia.
  replace (Z.of_nat (List.length W) - 14) with (Z.of_nat (List.length W - 14)) by lia.
  replace (Z.of_nat (List.length W) - 16) with (Z.of_nat (List.length W - 16)) by lia.
  now rewrite !get_nat.
Qed.

Lemma expand_front (n : nat) (W : list Z) :
  Spec.expand (S n) W = Spec.expand n (W ++ [Spec.next_word W]).
Proof.
  induction n as [|n IH]; [reflexivity|].
  change (Spec.expand (S (S n)) W)
    with (Spec.expand (S n) W ++ [Spec.next_word (Spec.expand (S n) W)]).
  rewrite IH. reflexivity.
Qed.

Lemma expand_length (n : nat) (W : list Z) :
  List.length (Spec.expand n W) = (List.length W + n)%nat.
Proof.
  induction n as [|n IH]; simpl; [lia|].
  rewrite length_app, IH. simpl. lia.
Qed.

Lemma schedule_loop (n : nat) (W : list Z) :
  exists W',
    fold_result
      (fun W t =>
         w <- ROTL uint32 1
                (uint32 (JS.bit_xor
                           (JS.bit_xor
                              (JS.bit_xor (JS.get W (t - 3)) (JS.get W (t - 8)))
                              (JS.get W (t - 14)))
                           (JS.get W (t - 16)))) ;;
         let W := JS.set W t w in
         checkUint32 (JS.get W t) ;;;
         Ok W)
      (map Z.of_nat (seq (List.length W) n)) W = Ok W'
    /\ List.length W' = (List.length W + n)%nat
    /\ (Forall Spec.is_word W -> (16 <= List.length W)%nat ->
        W' = Spec.expand n W /\ Forall Spec.is_word W').
Proof.
  revert W. induction n as [|n IH]; intros W.
  - exists W. repeat split; simpl; auto.
  - destruct (schedule_step W) as (w & Hstep & Hw & Hnext).
    cbv zeta in Hstep.
    destruct (IH (W ++ [w])) as (W' & Hloop & Hlen & Hexp).
    exists W'. cbn [seq map fold_result].
    rewrite Hstep. cbn [bind].
    replace (S (List.length W)) with (List.length (W ++ [w]))
      by (rewrite length_app; simpl; lia).
    split; [exact Hloop|]. split.
    + rewrite Hlen, length_app. simpl. lia.
    + intros HW H16. rewrite expand_front, <- (Hnext HW H16).
      apply Hexp.
      * apply Forall_app. split; [assumption | now constructor].
      * rewrite length_app. lia.
Qed.

(** The schedule is built without error for every block, and has 80 entries. *)
Lemma schedule_defined (block : list Z) :
  exists W, schedule uint32 block = Ok W /\ List.length W = 80%nat.
Proof.
  unfold schedule. cbv zeta.
  change (JS.range 0 16) with (map Z.of_nat (seq (@List.length Z []) 16)).
  rewrite schedule_copy, app_nil_l. change (@List.length Z []) with 0%nat.
  set (W0 := map _ (seq 0 16)).
  assert (H0 : List.length W0 = 16%nat) by (subst W0; now rewrite length_map, length_seq).
  change (JS.range 16 80) with (map Z.of_nat (seq 16 64)).
  destruct (schedule_loop 64 W0) as (W & HW & Hlen & _).
  rewrite H0 in HW. cbv zeta in HW.
  exists W. split; [exact HW | lia].
Qed.

(** On a block of 16 words it is the schedule of the specification. *)
Lemma schedule_spec (block : list Z) :
  List.length block = 16%nat -> Forall Spec.is_word block ->
  schedule uint32 block = Ok (Spec.schedule block).
Proof.
  intros Hlen Hwords. unfold schedule. cbv zeta.
  change (JS.range 0 16) with (map Z.of_nat (seq (@List.length Z []) 16)).
  rewrite schedule_copy, app_nil_l. change (@List.length Z []) with 0%nat.
  replace (seq 0 16) with (seq 0 (List.length block)) by now rewrite Hlen.
  rewrite nth_seq_block.
  change (JS.range 16 80) with (map Z.of_nat (seq 16 64)).
  destruct (schedule_loop 64 block) as (W & HW & _ & Hexp).
  rewrite Hlen in HW. cbv zeta in HW.
  rewrite HW. f_equal. apply Hexp; [assumption | lia].
Qed.

Lemma schedule_words (block : list Z) :
  List.length block = 16%nat -> Forall Spec.is_word block ->
  Forall Spec.is_word (Spec.schedule block).
Proof.
  intros Hlen Hwords.
  destruct (schedule_loop 64 block) as (W & _ & _ & Hexp).
  destruct Hexp as [-> HW]; [assumption | lia | exact HW].
Qed.

(** *** The rounds *)

Lemma round_spec (W : list Z) (v : Z * Z * Z * Z * Z) (t : nat) :
  (t <= 79)%nat -> Spec.words5 v ->
  round uint32 W v (Z.of_nat t) = Ok (Spec.round W t v) /\ Spec.words5 (Spec.round W t v).
Proof.
  intros Ht Hv. destruct v as [[[[a b] c] d] e].
  destruct Hv as (Ha & Hb & Hc & Hd & He).
  unfold round, Spec.round.
  rewrite ROTL_rotl by (assumption || lia). cbn [bind].
  rewrite f_spec by (assumption || lia). cbn [bind].
  rewrite K_spec by lia. cbn [bind].
  rewrite ROTL_rotl by (assumption || lia). cbn [bind].
  rewrite checkUint32_word by (apply rotl_word; [assumption|lia]). cbn [bind].
  rewrite uint32_mod, get_nat, Nat2Z.id.
  split; [reflexivity|].
  repeat split; try apply Z.mod_pos_bound; try apply rotl_word; try apply Ha;
    try apply Hc; try apply Hd; try assumption; lia.
Qed.

Lemma rounds_loop (W : list Z) (v : Z * Z * Z * Z * Z) (n : nat) :
  (n <= 80)%nat -> Spec.words5 v ->
  fold_result (round uint32 W) (map Z.of_nat (seq 0 n)) v = Ok (Spec.rounds n W v)
  /\ Spec.words5 (Spec.rounds n W v).
Proof.
  intros Hn Hv. induction n as [|n IH]; [split; [reflexivity | assumption]|].
  destruct IH as [IH Hw]; [lia|].
  rewrite seq_S, map_app, fold_result_app, IH. cbn [bind map fold_result Nat.add].
  destruct (round_spec W (Spec.rounds n W v) n) as [Hr Hw']; [lia | assumption |].
  rewrite Hr. cbn [bind]. split; [reflexivity | exact Hw'].
Qed.

(** The body of [digest] on a state of five words. *)
Lemma rounds_spec (block : list Z) (W : list Z) (s0 s1 s2 s3 s4 : Z) :
  schedule uint32 block = Ok W ->
  Spec.words5 (s0, s1, s2, s3, s4) ->
  exists a b c d e,
    Spec.rounds 80 W (s0, s1, s2, s3, s4) = (a, b, c, d, e)
    /\ rounds uint32 block [s0; s1; s2; s3; s4] = Ok [a; b; c; d; e].
Proof.
  intros HW Hs. unfold rounds. rewrite HW. cbn [bind].
  change (JS.range 0 80) with (map Z.of_nat (seq 0 80)).
  destruct (rounds_loop W (s0, s1, s2, s3, s4) 80) as [Hl _]; [lia | assumption |].
  rewrite Hl. cbn [bind].
  destruct (Spec.rounds 80 W (s0, s1, s2, s3, s4)) as [[[[a b] c] d] e].
  exists a, b, c, d, e. split; reflexivity.
Qed.

Lemma addVec_update (W : list Z) (s0 s1 s2 s3 s4 a b c d e : Z) :
  Spec.rounds 80 W (s0, s1, s2, s3, s4) = (a, b, c, d, e) ->
  addVec uint32 [s0; s1; s2; s3; s4] [a; b; c; d; e] = Spec.update W [s0; s1; s2; s3; s4].
Proof.
  intros H. unfold Spec.update. rewrite H. cbn [addVec].
  now rewrite !uint32_mod.
Qed.

Lemma update_words (W : list Z) (S : list Z) :
  List.length S = 5%nat ->
  List.length (Spec.update W S) = 5%nat /\ Forall Spec.is_word (Spec.update W S).
Proof.
  intros HS. destruct S as [|s0 [|s1 [|s2 [|s3 [|s4 [|]]]]]]; try discriminate.
  unfold Spec.update.
  destruct (Spec.rounds 80 W (s0, s1, s2, s3, s4)) as [[[[a b] c] d] e].
  split; [reflexivity|].
  repeat constructor; apply Z.mod_pos_bound; lia.
Qed.

End CoreFacts.

(** ** Unfolding the recursive functions *)

Lemma words_eqn (stream : list Z) :
  words stream =
  if Z.of_nat (List.length stream) =? 0 then Ok []
  else if Z.of_nat (List.length stream) <? 4 then Err IncompleteWord
  else rest <- words (skipn 4 stream) ;;
       Ok (fold_left (fun s byte => s * 256 + byte) (firstn 4 stream) 0 :: rest).
Proof.
  rewrite words_equation_1 at 1. unfold words_unfold_clause_1.
  destruct (Z.eq_dec _ 0) as [E|E].
  - now rewrite E.
  - rewrite (proj2 (Z.eqb_neq _ _) E). unfold words_unfold_clause_1_clause_2.
    destruct (Z_lt_dec _ wordSizeBytes) as [L|L]; unfold wordSizeBytes in L.
    + now rewrite (proj2 (Z.ltb_lt _ _) L).
    + now rewrite (proj2 (Z.ltb_nlt _ _) L).
Qed.

Lemma distribute_eqn (length : Z) :
  distribute length =
  if length <? 0 then Err NegativeLength
  else if length =? 0 then Ok []
  else rest <- distribute (length / 256) ;; Ok (length mod 256 :: rest).
Proof.
  rewrite distribute_equation_1 at 1. unfold distribute_unfold_clause_1.
  destruct (Z_lt_dec length 0) as [L|L].
  - now rewrite (proj2 (Z.ltb_lt _ _) L).
  - rewrite (proj2 (Z.ltb_nlt _ _) L). unfold distribute_unfold_clause_1_clause_2.
    destruct (Z.eq_dec length 0) as [E|E].
    + now rewrite E.
    + now rewrite (proj2 (Z.eqb_neq _ _) E).
Qed.

Lemma Rec_blocks_eqn (stream : list Z) :
  Rec.blocks stream =
  if Z.of_nat (List.length stream) =? 0 then Ok []
  else if Z.of_nat (List.length stream) <? 64 then Err IncompleteBlock
  else ws <- words (firstn 64 stream) ;;
       rest <- Rec.blocks (skipn 64 stream) ;;
       Ok (ws :: rest).
Proof.
  rewrite Rec.blocks_equation_1 at 1. unfold Rec.blocks_unfold_clause_1.
  destruct (Z.eq_dec _ 0) as [E|E].
  - now rewrite E.
  - rewrite (proj2 (Z.eqb_neq _ _) E). unfold Rec.blocks_unfold_clause_1_clause_2.
    destruct (Z_lt_dec _ blockSizeBytes) as [L|L]; unfold blockSizeBytes in L.
    + now rewrite (proj2 (Z.ltb_lt _ _) L).
    + now rewrite (proj2 (Z.ltb_nlt _ _) L).
Qed.

(** ** Consecutive chunks *)

Lemma chunks_step {A : Type} (n : nat) (l : list A) :
  (0 < n)%nat -> (n <= List.length l)%nat ->
  Spec.chunks n l = firstn n l :: Spec.chunks n (skipn n l).
Proof.
  intros Hn Hl. unfold Spec.chunks.
  replace (List.length l) with ((List.length l - n) + 1 * n)%nat at 1 by lia.
  rewrite Nat.div_add by lia. rewrite Nat.add_1_r. cbn [seq map].
  rewrite Nat.mul_0_l, skipn_O. f_equal.
  rewrite <- seq_shift, map_map, length_skipn. apply map_ext. intros k.
  rewrite skipn_skipn. f_equal. f_equal. lia.
Qed.

Lemma chunks_short {A : Type} (n : nat) (l : list A) :
  (List.length l < n)%nat -> Spec.chunks n l = [].
Proof. intros H. unfold Spec.chunks. now rewrite Nat.div_small. Qed.

Lemma chunks_app {A : Type} (n : nat) (a l : list A) :
  (0 < n)%nat -> List.length a = n -> Spec.chunks n (a ++ l) = a :: Spec.chunks n l.
Proof.
  intros Hn Ha. rewrite chunks_step by (rewrite ?length_app; lia).
  rewrite <- Ha at 1 3. rewrite firstn_app, skipn_app, Nat.sub_diag, firstn_all, skipn_all.
  cbn [firstn skipn]. now rewrite app_nil_r.
Qed.

Lemma chunks_count {A : Type} (n : nat) (l : list A) :
  List.length (Spec.chunks n l) = (List.length l / n)%nat.
Proof. unfold Spec.chunks. now rewrite length_map, length_seq. Qed.

Lemma chunks_size {A : Type} (n : nat) (l c : list A) :
  (0 < n)%nat -> In c (Spec.chunks n l) -> List.length c = n.
Proof.
  intros Hn Hc. unfold Spec.chunks in Hc. apply in_map_iff in Hc.
  destruct Hc as (k & <- & Hk). apply in_seq in Hk.
  rewrite length_firstn, length_skipn.
  assert (n * (List.length l / n) <= List.length l)%nat by (apply Nat.Div0.mul_div_le).
  nia.
Qed.

(** The chunks of a sequence whose length is a multiple of [n], put end to
    end, are the sequence: nothing is left over and the order is kept. *)
Lemma concat_chunks {A : Type} (n k : nat) (l : list A) :
  (0 < n)%nat -> List.length l = (k * n)%nat -> List.concat (Spec.chunks n l) = l.
Proof.
  intros Hn. revert l. induction k as [|k IH]; intros l Hl.
  - destruct l; [|discriminate]. rewrite chunks_short by (simpl; lia). reflexivity.
  - rewrite chunks_step by lia. cbn [List.concat].
    rewrite IH by (rewrite length_skipn; lia). apply firstn_skipn.
Qed.

(** ** Grouping bytes into words and blocks *)

Lemma be32_fold (b0 b1 b2 b3 : Z) (l : list Z) :
  fold_left (fun s byte => s * 256 + byte) (firstn 4 (b0 :: b1 :: b2 :: b3 :: l)) 0
  = Spec.be32 (firstn 4 (b0 :: b1 :: b2 :: b3 :: l)).
Proof. unfold Spec.be32. cbn [firstn fold_left nth]. ring. Qed.

Lemma words_spec (k : nat) (stream : list Z) :
  List.length stream = (4 * k)%nat ->
  words stream = Ok (map Spec.be32 (Spec.chunks 4 stream)).
Proof.
  revert stream. induction k as [|k IH]; intros stream Hlen.
  - destruct stream; [|discriminate]. now rewrite words_eqn.
  - rewrite words_eqn.
    rewrite (proj2 (Z.eqb_neq _ _)), (proj2 (Z.ltb_ge _ _)) by lia.
    rewrite IH by (rewrite length_skipn; lia). cbn [bind].
    rewrite (chunks_step 4 stream) by lia. cbn [map].
    destruct stream as [|b0 [|b1 [|b2 [|b3 l]]]]; try (simpl in Hlen; lia).
    now rewrite be32_fold.
Qed.

Lemma words_incomplete (stream : list Z) :
  (List.length stream mod 4 <> 0)%nat -> words stream = Err IncompleteWord.
Proof.
  remember (List.length stream) as n eqn:Hn. revert stream Hn.
  induction n as [n IH] using lt_wf_ind. intros stream Hn Hmod.
  rewrite words_eqn. destruct (Z.eqb_spec (Z.of_nat (List.length stream)) 0) as [E|E].
  - exfalso. apply Hmod. replace n with 0%nat by lia. reflexivity.
  - destruct (Z.ltb_spec (Z.of_nat (List.length stream)) 4) as [L|L]; [reflexivity|].
    rewrite (IH (n - 4)%nat); [reflexivity | lia | rewrite length_skipn; lia |].
    intros H. apply Hmod.
    replace n with ((n - 4) + 1 * 4)%nat by lia.
    now rewrite Nat.Div0.mod_add.
Qed.

Lemma Rec_blocks_spec (k : nat) (stream : list Z) :
  List.length stream = (64 * k)%nat -> Rec.blocks stream = Ok (Spec.parse stream).
Proof.
  revert stream. induction k as [|k IH]; intros stream Hlen.
  - destruct stream; [|discriminate]. now rewrite Rec_blocks_eqn.
  - rewrite Rec_blocks_eqn.
    rewrite (proj2 (Z.eqb_neq _ _)), (proj2 (Z.ltb_ge _ _)) by lia.
    rewrite (words_spec 16) by (rewrite length_firstn; lia). cbn [bind].
    rewrite IH by (rewrite length_skipn; lia). cbn [bind].
    unfold Spec.parse. now rewrite (chunks_step 64 stream) by lia.
Qed.

Lemma Rec_blocks_incomplete (stream : list Z) :
  (List.length stream mod 64 <> 0)%nat -> Rec.blocks stream = Err IncompleteBlock.
Proof.
  remember (List.length stream) as n eqn:Hn. revert stream Hn.
  induction n as [n IH] using lt_wf_ind. intros stream Hn Hmod.
  rewrite Rec_blocks_eqn.
  destruct (Z.eqb_spec (Z.of_nat (List.length stream)) 0) as [E|E].
  - exfalso. apply Hmod. replace n with 0%nat by lia. reflexivity.
  - destruct (Z.ltb_spec (Z.of_nat (List.length stream)) 64) as [L|L]; [reflexivity|].
    rewrite (words_spec 16) by (rewrite length_firstn; lia). cbn [bind].
    rewrite (IH (n - 64)%nat); [reflexivity | lia | rewrite length_skipn; lia |].
    intros H. apply Hmod.
    replace n with ((n - 64) + 1 * 64)%nat by lia.
    now rewrite Nat.Div0.mod_add.
Qed.

(** ** Padding *)

Lemma zero_count_formula (L : Z) :
  blockSizeBytes * JS.ceil_div (L + 9) blockSizeBytes - 9 - L = Spec.zero_count L.
Proof.
  unfold JS.ceil_div, Spec.zero_count, blockSizeBytes.
  rewrite (Z.mod_eq (- (L + 9)) 64) by lia. lia.
Qed.

Lemma zero_count_range (L : Z) : 0 <= Spec.zero_count L < 64.
Proof. apply Z.mod_pos_bound. lia. Qed.

Lemma zero_count_multiple (L : Z) : (L + 1 + Spec.zero_count L + 8) mod 64 = 0.
Proof.
  unfold Spec.zero_count.
  replace (L + 1 + (- (L + 9)) mod 64 + 8) with ((- (L + 9)) mod 64 + (L + 9)) by lia.
  rewrite Z.add_mod_idemp_l by lia.
  replace (- (L + 9) + (L + 9)) with 0 by lia. reflexivity.
Qed.

Lemma zero_count_least (L k : Z) :
  0 <= k -> (L + 1 + k + 8) mod 64 = 0 -> Spec.zero_count L <= k.
Proof.
  intros Hk Hmod. pose proof (zero_count_range L) as Hr.
  pose proof (zero_count_multiple L) as Hz.
  apply Z.mod_divide in Hmod; [|lia]. apply Z.mod_divide in Hz; [|lia].
  destruct Hmod as [x Hx]. destruct Hz as [y Hy]. lia.
Qed.

Lemma map_const_repeat {A B : Type} (b : B) (l : list A) :
  map (fun _ => b) l = repeat b (List.length l).
Proof. induction l; simpl; congruence. Qed.

Lemma firstn_repeat_more (d : list Z) (k j : nat) :
  (k <= j)%nat -> firstn k (d ++ repeat 0 j) = firstn k (d ++ repeat 0 k).
Proof.
  revert k j. induction d as [|x d IH]; intros k j Hkj.
  - cbn [app]. rewrite firstn_all2 with (l := repeat 0 k) by (rewrite repeat_length; lia).
    replace j with (k + (j - k))%nat by lia. rewrite repeat_app, firstn_app.
    rewrite repeat_length, Nat.sub_diag. cbn [firstn]. rewrite app_nil_r.
    apply firstn_all2. rewrite repeat_length. lia.
  - destruct k as [|k]; [reflexivity|]. destruct j as [|j]; [lia|].
    cbn [app firstn]. f_equal.
    rewrite (IH k (S j)) by lia. rewrite (IH k (S k)) by lia. reflexivity.
Qed.

(** [distribute] returns the base-256 digits, least significant first; cut
    or zero-filled to [k] digits they are the [k] low bytes of the number. *)
Lemma distribute_spec (n : Z) :
  0 <= n ->
  exists d, distribute n = Ok d /\
            forall k, firstn k (d ++ repeat 0 k)
                      = map (fun i => (n / 256 ^ Z.of_nat i) mod 256) (seq 0 k).
Proof.
  intros Hn. revert Hn.
  induction n as [n IH] using (well_founded_induction (Z.lt_wf 0)). intros Hn.
  rewrite distribute_eqn. rewrite (proj2 (Z.ltb_ge _ _)) by lia.
  destruct (Z.eqb_spec n 0) as [->|Hnz].
  - exists []. split; [reflexivity|]. intros k. cbn [app].
    rewrite firstn_all2 by (rewrite repeat_length; lia).
    transitivity (map (fun _ : nat => 0) (seq 0 k)).
    + now rewrite map_const_repeat, length_seq.
    + apply map_ext. intros i. rewrite Z.div_0_l by lia. reflexivity.
  - assert (Hd : 0 <= n / 256 < n)
      by (split; [apply Z.div_pos | apply Z.div_lt]; lia).
    destruct (IH (n / 256)) as (d & Hdist & Hdigits); [lia | lia |].
    exists (n mod 256 :: d). rewrite Hdist. split; [reflexivity|].
    intros [|k]; [reflexivity|].
    cbn [app firstn seq map]. f_equal.
    + now rewrite Z.pow_0_r, Z.div_1_r.
    + rewrite firstn_repeat_more by lia. rewrite Hdigits.
      rewrite <- seq_shift, map_map. apply map_ext. intros i.
      rewrite Nat2Z.inj_succ, Z.pow_succ_r by lia.
      now rewrite Z.div_div by lia.
Qed.

Lemma addLength_bytes (L : Z) :
  0 <= L ->
  (d <- distribute (L * 8) ;; Ok (rev (firstn 8 (d ++ repeat 0 8)))) = Ok (Spec.be64 (L * 8)).
Proof.
  intros HL. destruct (distribute_spec (L * 8)) as (d & Hd & Hk); [lia|].
  rewrite Hd. cbn [bind]. rewrite Hk. reflexivity.
Qed.

Lemma count_loop (m : list Z) (s : Z) :
  fold_gen (fun length byte => gen_bind (yield byte) (fun _ => gen_ret (length + 1))) m s
  = (m, Ok (s + Z.of_nat (List.length m))).
Proof.
  revert s. induction m as [|x m IH]; intros s.
  - cbn. now rewrite Z.add_0_r.
  - cbn [fold_gen]. unfold gen_bind at 1 2, yield, gen_ret. rewrite IH.
    cbn [app List.length]. rewrite Nat2Z.inj_succ. f_equal. f_equal. lia.
Qed.

Lemma Iter_bytes_string (s : JS.str) :
  Iter.bytes (JS.Str s) = (map JS.charCode s, Ok tt).
Proof. apply fold_gen_yield. Qed.

Lemma Iter_addZeros_spec (L : Z) :
  Iter.addZeros L = (repeat 0 (Z.to_nat (Spec.zero_count L)), Ok tt).
Proof.
  unfold Iter.addZeros. cbv zeta. rewrite zero_count_formula.
  rewrite (fold_gen_yield (fun _ => 0)), map_const_repeat, range_length.
  now rewrite Z.sub_0_r.
Qed.

Lemma Iter_addLength_spec (L : Z) :
  0 <= L -> Iter.addLength L = (Spec.be64 (L * 8), Ok tt).
Proof.
  intros HL. unfold Iter.addLength. rewrite addLength_bytes by assumption.
  unfold gen_call, gen_bind.
  rewrite (fold_gen_yield (fun b => b)), map_id. reflexivity.
Qed.

(** The padder on a message that is produced without error. *)
Lemma Iter_padMessage_spec (m : list Z) :
  Iter.padMessage (m, Ok tt) = (Spec.pad m, Ok tt).
Proof.
  unfold Iter.padMessage, gen_for_of. cbn [yielded outcome fst snd].
  rewrite count_loop. cbn [gen_bind gen_ret app]. rewrite app_nil_r.
  rewrite Z.add_0_l, Iter_addZeros_spec, Iter_addLength_spec by lia.
  unfold yield. cbn [gen_bind]. reflexivity.
Qed.

(** If the message generator throws, the padder throws after the bytes it
    has passed on. *)
Lemma Iter_padMessage_error (m : list Z) (e : error) :
  Iter.padMessage (m, Err e) = (m, Err e).
Proof.
  unfold Iter.padMessage, gen_for_of. cbn [yielded outcome fst snd].
  rewrite count_loop. cbn [gen_bind gen_throw app]. now rewrite app_nil_r.
Qed.

Lemma Rec_padMessage_spec (m : list Z) : Rec.padMessage m = Ok (Spec.pad m).
Proof.
  unfold Rec.padMessage, Rec.addZeros, Rec.addLength, Rec.addEof. cbv zeta.
  rewrite zero_count_formula.
  rewrite (proj2 (Z.ltb_ge _ _)) by apply zero_count_range. cbn [bind].
  destruct (distribute_spec (Z.of_nat (List.length m) * 8)) as (d & Hd & Hk); [lia|].
  rewrite Hd. cbn [bind]. rewrite Hk. unfold Spec.pad. cbv zeta.
  now rewrite <- !app_assoc.
Qed.

Lemma be64_length (n : Z) : List.length (Spec.be64 n) = 8%nat.
Proof. reflexivity. Qed.

Lemma pad_length (m : list Z) :
  Z.of_nat (List.length (Spec.pad m))
  = Z.of_nat (List.length m) + 1 + Spec.zero_count (Z.of_nat (List.length m)) + 8.
Proof.
  unfold Spec.pad. cbv zeta.
  rewrite !length_app, repeat_length, be64_length. cbn [List.length].
  pose proof (zero_count_range (Z.of_nat (List.length m))). lia.
Qed.

(** The padded length is a positive multiple of 64. *)
Lemma pad_blocks (m : list Z) :
  exists k, (0 < k)%nat /\ List.length (Spec.pad m) = (64 * k)%nat.
Proof.
  pose proof (pad_length m) as Hl.
  pose proof (zero_count_multiple (Z.of_nat (List.length m))) as Hm.
  pose proof (zero_count_range (Z.of_nat (List.length m))) as Hr.
  rewrite <- Hl in Hm. apply Z.mod_divide in Hm; [|lia]. destruct Hm as [x Hx].
  exists (Z.to_nat x). lia.
Qed.

(** ** The block parser of [src/sha1.js] *)

(** The loop of [blocks], started with [buf] in the buffer: it yields the
    blocks of [buf ++ stream] and ends with the bytes after the last
    complete block in the buffer. *)
Lemma Iter_blocks_loop (stream buf : list Z) :
  (List.length buf < 64)%nat ->
  fold_gen
    (fun buf byte =>
       let buf := buf ++ [byte] in
       if Z.of_nat (List.length buf) =? blockSizeBytes
       then gen_bind (gen_call (words buf))
                     (fun ws => gen_bind (yield ws) (fun _ => gen_ret []))
       else gen_ret buf)
    stream buf
  = (Spec.parse (buf ++ stream),
     Ok (skipn (64 * (List.length (buf ++ stream) / 64)) (buf ++ stream))).
Proof.
  set (body := fun (buf : list Z) (byte : Z) => _).
  revert buf. induction stream as [|x stream IH]; intros buf Hbuf.
  - cbn [fold_gen]. rewrite app_nil_r. unfold Spec.parse.
    rewrite chunks_short by assumption. rewrite Nat.div_small by assumption.
    reflexivity.
  - cbn [fold_gen]. unfold body at 1. cbv beta zeta.
    assert (Hlen : List.length (buf ++ [x]) = S (List.length buf))
      by (rewrite length_app; simpl; lia).
    replace (buf ++ x :: stream) with ((buf ++ [x]) ++ stream)
      by now rewrite <- app_assoc.
    destruct (Z.eqb_spec (Z.of_nat (List.length (buf ++ [x]))) blockSizeBytes) as [E|E];
      unfold blockSizeBytes in E.
    + rewrite (words_spec 16) by lia.
      unfold gen_call, yield, gen_ret. unfold gen_bind at 1 2 3.
      rewrite (IH []) by (simpl; lia). cbn [app].
      unfold Spec.parse. rewrite (chunks_app 64) by lia. cbn [map].
      f_equal. f_equal.
      rewrite length_app.
      replace (List.length (buf ++ [x]) + List.length stream)%nat
        with (List.length stream + 1 * 64)%nat by lia.
      rewrite Nat.div_add by lia.
      replace (64 * (List.length stream / 64 + 1))%nat
        with (64 * (List.length stream / 64) + List.length (buf ++ [x]))%nat by lia.
      rewrite <- skipn_skipn, skipn_app, Nat.sub_diag, skipn_all.
      reflexivity.
    + unfold gen_ret. unfold gen_bind at 1.
      rewrite IH by lia. reflexivity.
Qed.

Lemma skipn_multiple_length {A : Type} (l : list A) :
  List.length (skipn (64 * (List.length l / 64)) l) = (List.length l mod 64)%nat.
Proof.
  rewrite length_skipn. rewrite (Nat.div_mod_eq (List.length l) 64) at 1. lia.
Qed.

(** On a byte sequence produced without error, [blocks] yields the blocks of
    the complete 64-byte chunks, and throws at the end if bytes are left. *)
Lemma Iter_blocks_spec (stream : list Z) :
  Iter.blocks (stream, Ok tt)
  = (Spec.parse stream,
     if (List.length stream mod 64 =? 0)%nat then Ok tt else Err IncompleteBlock).
Proof.
  unfold Iter.blocks, gen_for_of.
  change (yielded (stream, @Ok unit tt)) with stream.
  change (outcome (stream, @Ok unit tt)) with (@Ok unit tt).
  pose proof (Iter_blocks_loop stream []) as Hloop. cbv zeta in Hloop.
  rewrite Hloop by (simpl; lia). clear Hloop. cbn [app].
  unfold gen_ret. unfold gen_bind at 2. rewrite app_nil_r. unfold gen_bind.
  rewrite skipn_multiple_length.
  destruct (Nat.eqb_spec (List.length stream mod 64) 0) as [E|E].
  - rewrite E. cbn [Z.of_nat Z.eqb negb]. now rewrite app_nil_r.
  - rewrite (proj2 (Z.eqb_neq _ _)) by lia. cbn [negb]. unfold gen_throw.
    now rewrite app_nil_r.
Qed.

(** If the byte generator throws, [blocks] throws the same error, after the
    blocks that were complete. *)
Lemma Iter_blocks_error (stream : list Z) (e : error) :
  Iter.blocks (stream, Err e) = (Spec.parse stream, Err e).
Proof.
  unfold Iter.blocks, gen_for_of.
  change (yielded (stream, @Err unit e)) with stream.
  change (outcome (stream, @Err unit e)) with (@Err unit e).
  pose proof (Iter_blocks_loop stream []) as Hloop. cbv zeta in Hloop.
  rewrite Hloop by (simpl; lia). clear Hloop. cbn [app].
  unfold gen_throw. unfold gen_bind at 2. rewrite app_nil_r. reflexivity.
Qed.

(** ** The compression step in the two files *)

Lemma words5_list (S : list Z) :
  List.length S = 5%nat -> Forall Spec.is_word S ->
  exists s0 s1 s2 s3 s4,
    S = [s0; s1; s2; s3; s4] /\ Spec.words5 (s0, s1, s2, s3, s4).
Proof.
  intros HS HW. destruct S as [|s0 [|s1 [|s2 [|s3 [|s4 [|]]]]]]; try discriminate.
  exists s0, s1, s2, s3, s4. split; [reflexivity|].
  repeat match goal with H : Forall _ (_ :: _) |- _ => inversion H; subst; clear H end.
  unfold Spec.words5. tauto.
Qed.

(** [digest] of [src/sha1.js] on any block of 16 entries and a state of five
    words: the schedule is built, and the result is the updated state. *)
Lemma Iter_digest_update (block S : list Z) :
  List.length block = 16%nat -> List.length S = 5%nat -> Forall Spec.is_word S ->
  exists W, schedule Iter.uint32 block = Ok W /\
            Iter.digest block S = Ok (Spec.update W S).
Proof.
  intros Hb HS HW.
  destruct (words5_list S HS HW) as (s0 & s1 & s2 & s3 & s4 & -> & H5).
  destruct (schedule_defined Iter.uint32 Iter_uint32_mod block) as (W & HWs & _).
  exists W. split; [assumption|].
  destruct (rounds_spec Iter.uint32 Iter_uint32_mod block W s0 s1 s2 s3 s4 HWs H5)
    as (a & b & c & d & e & Hr & Hrounds).
  unfold Iter.digest. rewrite Hb.
  change (negb (Z.of_nat 16 =? blockSizeBytes / wordSizeBytes)) with false.
  cbv iota. rewrite Hrounds. cbn [bind]. f_equal.
  apply (addVec_update Iter.uint32 Iter_uint32_mod). exact Hr.
Qed.

Lemma Iter_digest_spec (block S : list Z) :
  List.length block = 16%nat -> Forall Spec.is_word block ->
  List.length S = 5%nat -> Forall Spec.is_word S ->
  Iter.digest block S = Ok (Spec.compress S block).
Proof.
  intros Hb Hbw HS HW.
  destruct (Iter_digest_update block S Hb HS HW) as (W & HWs & Hd).
  rewrite (schedule_spec Iter.uint32 Iter_uint32_mod block Hb Hbw) in HWs.
  injection HWs as <-. exact Hd.
Qed.

(** One step of [digest] of [src/unnamed/part_000]: the first block goes
    through the rounds, the rest is digested from the updated state. *)
Lemma Rec_digest_step (block : list Z) (rest : list (list Z)) (S : list Z) :
  List.length block = 16%nat -> Forall Spec.is_word block ->
  List.length S = 5%nat -> Forall Spec.is_word S ->
  Rec.digest (block :: rest) S = Rec.digest rest (Spec.compress S block).
Proof.
  intros Hb Hbw HS HW.
  destruct (words5_list S HS HW) as (s0 & s1 & s2 & s3 & s4 & -> & H5).
  pose proof (schedule_spec Rec.uint32 Rec_uint32_mod block Hb Hbw) as HWs.
  destruct (rounds_spec Rec.uint32 Rec_uint32_mod block _ s0 s1 s2 s3 s4 HWs H5)
    as (a & b & c & d & e & Hr & Hrounds).
  cbn [Rec.digest]. rewrite Hb.
  change (negb (Z.of_nat 16 =? 16)) with false. cbv iota.
  assert (Hcheck : fold_result (fun (_ : unit) w => checkUint32 w) block tt = Ok tt).
  { clear -Hbw. induction Hbw as [|w block Hw _ IH]; [reflexivity|].
    cbn [fold_result]. rewrite checkUint32_word by assumption. exact IH. }
  rewrite Hcheck. cbn [bind]. rewrite Hrounds. cbn [bind]. f_equal.
  apply (addVec_update Rec.uint32 Rec_uint32_mod). exact Hr.
Qed.

(** [block.forEach(checkUint32)] throws at the first entry that is not a word. *)
Lemma check_block (block : list Z) :
  (Forall Spec.is_word block /\
   fold_result (fun (_ : unit) w => checkUint32 w) block tt = Ok tt)
  \/ (exists w, In w block /\ ~ Spec.is_word w /\
                fold_result (fun (_ : unit) w => checkUint32 w) block tt
                = Err (NotUint32 w)).
Proof.
  induction block as [|w block IH].
  - left. split; [constructor | reflexivity].
  - cbn [fold_result]. unfold checkUint32 at 1 3.
    destruct (isUint32 w) eqn:Hw; cbn [negb bind].
    + apply isUint32_iff in Hw.
      destruct IH as [[HF Hok] | (w' & Hin & Hnw & Herr)].
      * left. split; [now constructor | exact Hok].
      * right. exists w'. split; [now right|]. split; assumption.
    + right. exists w. split; [now left|]. split; [|reflexivity].
      intros H. apply isUint32_iff in H. congruence.
Qed.

(** Folding over the blocks. *)
Lemma compress_words (S block : list Z) :
  List.length S = 5%nat ->
  List.length (Spec.compress S block) = 5%nat
  /\ Forall Spec.is_word (Spec.compress S block).
Proof. intros HS. apply update_words. exact HS. Qed.

Lemma fold_compress_words (bs : list (list Z)) (S : list Z) :
  List.length S = 5%nat -> Forall Spec.is_word S ->
  List.length (fold_left Spec.compress bs S) = 5%nat
  /\ Forall Spec.is_word (fold_left Spec.compress bs S).
Proof.
  revert S. induction bs as [|b bs IH]; intros S HS HW; [now split|].
  cbn [fold_left]. destruct (compress_words S b HS). now apply IH.
Qed.

Lemma Iter_fold_spec (bs : list (list Z)) (S : list Z) :
  Forall (fun b => List.length b = 16%nat /\ Forall Spec.is_word b) bs ->
  List.length S = 5%nat -> Forall Spec.is_word S ->
  fold_result (fun hash block => Iter.digest block hash) bs S
  = Ok (fold_left Spec.compress bs S).
Proof.
  intros Hbs. revert S. induction Hbs as [|b bs [Hb Hbw] _ IH]; intros S HS HW.
  - reflexivity.
  - cbn [fold_result fold_left]. rewrite Iter_digest_spec by assumption. cbn [bind].
    destruct (compress_words S b HS). now apply IH.
Qed.

(** The loop of [sha1] in [src/sha1.js] never throws on blocks of 16 entries. *)
Lemma Iter_fold_defined (bs : list (list Z)) (S : list Z) :
  Forall (fun b => List.length b = 16%nat) bs ->
  List.length S = 5%nat -> Forall Spec.is_word S ->
  exists S', fold_result (fun hash block => Iter.digest block hash) bs S = Ok S'
             /\ List.length S' = 5%nat /\ Forall Spec.is_word S'.
Proof.
  intros Hbs. revert S. induction Hbs as [|b bs Hb _ IH]; intros S HS HW.
  - exists S. now repeat split.
  - destruct (Iter_digest_update b S Hb HS HW) as (W & _ & Hd).
    cbn [fold_result]. rewrite Hd. cbn [bind].
    destruct (update_words W S HS). now apply IH.
Qed.

Lemma Rec_digest_spec (bs : list (list Z)) (S : list Z) :
  Forall (fun b => List.length b = 16%nat /\ Forall Spec.is_word b) bs ->
  List.length S = 5%nat -> Forall Spec.is_word S ->
  Rec.digest bs S = Ok (fold_left Spec.compress bs S).
Proof.
  intros Hbs. revert S. induction Hbs as [|b bs [Hb Hbw] _ IH]; intros S HS HW.
  - reflexivity.
  - rewrite Rec_digest_step by assumption. cbn [fold_left].
    destruct (compress_words S b HS). now apply IH.
Qed.

(** With an entry that is not a word in some block, [digest] of
    [src/unnamed/part_000] throws "not uint32" for it. *)
Lemma Rec_digest_cases (bs : list (list Z)) (S : list Z) :
  Forall (fun b => List.length b = 16%nat) bs ->
  List.length S = 5%nat -> Forall Spec.is_word S ->
  (Forall (Forall Spec.is_word) bs /\ Rec.digest bs S = Ok (fold_left Spec.compress bs S))
  \/ (exists w, ~ Spec.is_word w /\ In w (List.concat bs)
                /\ Rec.digest bs S = Err (NotUint32 w)).
Proof.
  intros Hbs. revert S. induction Hbs as [|b bs Hb _ IH]; intros S HS HW.
  - left. split; [constructor | reflexivity].
  - destruct (check_block b) as [[Hbw Hok] | (w & Hin & Hnw & Herr)].
    + rewrite Rec_digest_step by assumption. cbn [fold_left].
      destruct (compress_words S b HS) as [H5 Hw5].
      destruct (IH _ H5 Hw5) as [[HF Hd] | (w & Hnw & Hin & Hd)].
      * left. split; [now constructor | exact Hd].
      * right. exists w. split; [assumption|]. split; [|exact Hd].
        cbn [List.concat]. apply in_or_app. now right.
    + right. exists w. split; [assumption|]. split.
      * cbn [List.concat]. apply in_or_app. now left.
      * cbn [Rec.digest]. rewrite Hb.
        change (negb (Z.of_nat 16 =? 16)) with false. cbv iota.
        rewrite Herr. reflexivity.
Qed.

(** ** Bytes, words and blocks of a padded message *)

Lemma charCode_range (u : JS.code_unit) : 0 <= JS.charCode u < 65536.
Proof.
  unfold JS.charCode.
  pose proof (Byte.to_N_bounded (JS.hi u)). pose proof (Byte.to_N_bounded (JS.lo u)).
  lia.
Qed.

Lemma in_firstn {A : Type} (n : nat) (l : list A) (x : A) :
  In x (firstn n l) -> In x l.
Proof.
  intros H. rewrite <- (firstn_skipn n l). apply in_or_app. now left.
Qed.

Lemma in_skipn {A : Type} (n : nat) (l : list A) (x : A) :
  In x (skipn n l) -> In x l.
Proof.
  intros H. rewrite <- (firstn_skipn n l). apply in_or_app. now right.
Qed.

Lemma in_chunks {A : Type} (n : nat) (l c : list A) (x : A) :
  In c (Spec.chunks n l) -> In x c -> In x l.
Proof.
  intros Hc Hx. unfold Spec.chunks in Hc. apply in_map_iff in Hc.
  destruct Hc as (k & <- & _).
  apply (in_skipn (k * n)), (in_firstn n). exact Hx.
Qed.

Lemma chunks_Forall {A : Type} (P : A -> Prop) (n : nat) (l : list A) :
  Forall P l -> Forall (Forall P) (Spec.chunks n l).
Proof.
  intros Hl. apply Forall_forall. intros c Hc. apply Forall_forall. intros x Hx.
  rewrite Forall_forall in Hl. apply Hl. eapply in_chunks; eassumption.
Qed.

Lemma nth_byte (g : list Z) (i : nat) : Forall Spec.is_byte g -> Spec.is_byte (nth i g 0).
Proof.
  intros Hg. destruct (nth_in_or_default i g 0) as [Hin | ->].
  - rewrite Forall_forall in Hg. now apply Hg.
  - split; lia.
Qed.

Lemma be32_word (g : list Z) : Forall Spec.is_byte g -> Spec.is_word (Spec.be32 g).
Proof.
  intros Hg. unfold Spec.be32, Spec.is_word.
  pose proof (nth_byte g 0 Hg) as H0. pose proof (nth_byte g 1 Hg) as H1.
  pose proof (nth_byte g 2 Hg) as H2. pose proof (nth_byte g 3 Hg) as H3.
  unfold Spec.is_byte in *.
  change (2 ^ 32) with 4294967296. change (2 ^ 24) with 16777216.
  change (2 ^ 16) with 65536. change (2 ^ 8) with 256. lia.
Qed.

Lemma parse_blocks (stream : list Z) :
  Forall (fun b => List.length b = 16%nat) (Spec.parse stream).
Proof.
  unfold Spec.parse. apply Forall_forall. intros b Hb.
  apply in_map_iff in Hb. destruct Hb as (c & <- & Hc).
  rewrite length_map, chunks_count.
  now rewrite (chunks_size 64 stream c) by (lia || assumption).
Qed.

Lemma parse_words (stream : list Z) :
  Forall Spec.is_byte stream ->
  Forall (fun b => List.length b = 16%nat /\ Forall Spec.is_word b) (Spec.parse stream).
Proof.
  intros Hs. pose proof (parse_blocks stream) as H16.
  rewrite Forall_forall in *. intros b Hb. split; [now apply H16|].
  unfold Spec.parse in Hb. apply in_map_iff in Hb. destruct Hb as (c & <- & Hc).
  apply Forall_forall. intros w Hw. apply in_map_iff in Hw.
  destruct Hw as (g & <- & Hg). apply be32_word.
  apply Forall_forall. intros x Hx. apply Hs.
  eapply in_chunks; [exact Hc|]. eapply in_chunks; eassumption.
Qed.

Lemma be64_bytes (n : Z) : Forall Spec.is_byte (Spec.be64 n).
Proof.
  unfold Spec.be64. apply Forall_forall. intros x Hx.
  apply in_map_iff in Hx. destruct Hx as (i & <- & _).
  apply Z.mod_pos_bound. lia.
Qed.

Lemma pad_bytes (m : list Z) : Forall Spec.is_byte m -> Forall Spec.is_byte (Spec.pad m).
Proof.
  intros Hm. unfold Spec.pad. cbv zeta.
  apply Forall_app. split; [assumption|].
  apply Forall_app. split; [constructor; [split; lia | constructor]|].
  apply Forall_app. split; [|apply be64_bytes].
  apply Forall_forall. intros x Hx. apply repeat_spec in Hx. subst. split; lia.
Qed.

Lemma pad_mod64 (m : list Z) : (List.length (Spec.pad m) mod 64 = 0)%nat.
Proof.
  destruct (pad_blocks m) as (k & _ & ->).
  rewrite Nat.mul_comm. apply Nat.Div0.mod_mul.
Qed.

(** ** [sha1] from end to end *)

Lemma init_words : List.length init = 5%nat /\ Forall Spec.is_word init.
Proof. split; [reflexivity|]. repeat constructor; vm_compute; congruence. Qed.

(** [sha1] of [src/sha1.js] on a string: the loop runs over the blocks of the
    padded character codes. *)
Lemma Iter_sha1_loop (s : JS.str) :
  Iter.sha1 (JS.Str s)
  = (hash <- fold_result (fun hash block => Iter.digest block hash)
                         (Spec.parse (Spec.pad (map JS.charCode s))) init ;;
     Ok (map JS.toString16 hash)).
Proof.
  unfold Iter.sha1. cbv zeta.
  rewrite Iter_bytes_string, Iter_padMessage_spec, Iter_blocks_spec.
  rewrite pad_mod64. cbn [Nat.eqb]. unfold for_of. cbn [yielded outcome fst snd].
  destruct (fold_result _ _ init); reflexivity.
Qed.

(** It returns five words for every string. *)
Lemma Iter_sha1_defined (s : JS.str) :
  exists h, Iter.sha1 (JS.Str s) = Ok (map JS.toString16 h)
            /\ List.length h = 5%nat /\ Forall Spec.is_word h.
Proof.
  rewrite Iter_sha1_loop.
  destruct (Iter_fold_defined (Spec.parse (Spec.pad (map JS.charCode s))) init)
    as (h & Hh & H5 & Hw); try apply init_words; [apply parse_blocks|].
  exists h. rewrite Hh. now repeat split.
Qed.

Lemma Iter_sha1_spec (s : JS.str) :
  Forall Spec.is_byte (map JS.charCode s) ->
  Iter.sha1 (JS.Str s) = Ok (map JS.toString16 (Spec.sha1_words (map JS.charCode s))).
Proof.
  intros Hs. rewrite Iter_sha1_loop.
  rewrite Iter_fold_spec; try apply init_words; [reflexivity|].
  apply parse_words, pad_bytes, Hs.
Qed.

Lemma Rec_sha1_digest (s : JS.str) :
  Rec.sha1 (JS.Str s)
  = (hash <- Rec.digest (Spec.parse (Spec.pad (map JS.charCode s))) init ;;
     Ok (map JS.toString16 hash)).
Proof.
  unfold Rec.sha1, Rec.bytes. cbn [bind]. rewrite Rec_padMessage_spec. cbn [bind].
  destruct (pad_blocks (map JS.charCode s)) as (k & Hk & Hlen).
  rewrite Hlen. unfold blockSizeBytes.
  replace (Z.of_nat (64 * k) mod 64 =? 0) with true
    by (symmetry; apply Z.eqb_eq; rewrite Nat2Z.inj_mul, Z.mul_comm; apply Z.mod_mul; lia).
  cbn [negb]. rewrite (Rec_blocks_spec k) by assumption. reflexivity.
Qed.

Lemma Rec_sha1_spec (s : JS.str) :
  Forall Spec.is_byte (map JS.charCode s) ->
  Rec.sha1 (JS.Str s) = Ok (map JS.toString16 (Spec.sha1_words (map JS.charCode s))).
Proof.
  intros Hs. rewrite Rec_sha1_digest.
  rewrite Rec_digest_spec; try apply init_words; [reflexivity|].
  apply parse_words, pad_bytes, Hs.
Qed.

(** On a value that is not a string nothing is yielded before the error. *)
Lemma Iter_sha1_not_string (v : JS.value) :
  (forall s, v <> JS.Str s) ->
  Iter.bytes v = ([], Err (UnsupportedInputType (JS.typeof v)))
  /\ Iter.sha1 v = Err (UnsupportedInputType (JS.typeof v)).
Proof.
  intros Hv.
  assert (Hb : Iter.bytes v = ([], Err (UnsupportedInputType (JS.typeof v)))).
  { destruct v; try reflexivity. now destruct (Hv s). }
  split; [exact Hb|].
  unfold Iter.sha1. cbv zeta. rewrite Hb, Iter_padMessage_error, Iter_blocks_error.
  reflexivity.
Qed.

Lemma Rec_sha1_not_string (v : JS.value) :
  (forall s, v <> JS.Str s) ->
  Rec.sha1 v = Err (UnsupportedInputType (JS.typeof v)).
Proof.
  intros Hv. destruct v; try reflexivity. now destruct (Hv s).
Qed.

(** ** Rendering in hexadecimal *)

Lemma hex_length (n : nat) (p : positive) (rest : string) :
  Z.pos p < 16 ^ Z.of_nat n ->
  (String.length (HexString.Raw.of_pos p rest) <= n + String.length rest)%nat.
Proof.
  revert p rest. induction n as [|n IH]; intros p rest Hp.
  - change (16 ^ Z.of_nat 0) with 1 in Hp. lia.
  - rewrite Nat2Z.inj_succ, Z.pow_succ_r in Hp by lia.
    do 4 (try destruct p as [p|p|]);
      cbn [HexString.Raw.of_pos String.length];
      try lia;
      (eapply Nat.le_trans; [apply IH; lia | cbn [String.length]; lia]).
Qed.


(** ** The statements of the specification *)

(** C1.  For the input "" the top-level sha1 operation returns the five
    words rendered in lowercase hexadecimal, which joined with spaces read
    [da39a3ee 5e6b4b0d 3255bfef 95601890 afd80709], and for the input "abc"
    [a9993e36 4706816a ba3e2571 7850c26c 9cd0d89d]; in both files. *)
Theorem C1_test_vectors :
  Iter.got (JS.Str (JS.of_string "")) = Ok "da39a3ee 5e6b4b0d 3255bfef 95601890 afd80709"%string
  /\ Iter.got (JS.Str (JS.of_string "abc")) = Ok "a9993e36 4706816a ba3e2571 7850c26c 9cd0d89d"%string
  /\ (hash <- Rec.sha1 (JS.Str (JS.of_string "")) ;; Ok (JS.join " " hash))
     = Ok "da39a3ee 5e6b4b0d 3255bfef 95601890 afd80709"%string
  /\ (hash <- Rec.sha1 (JS.Str (JS.of_string "abc")) ;; Ok (JS.join " " hash))
     = Ok "a9993e36 4706816a ba3e2571 7850c26c 9cd0d89d"%string.
Proof. split; [|split; [|split]]; vm_compute; reflexivity. Qed.



(** C6, as the specification states it, fails at [r = 0]: the second
    rotation is then by 32 bits, which [ROTL] refuses. *)
Lemma C6_counterexample :
  ~ (forall w r, Spec.is_word w -> 0 <= r <= 31 ->
                 (x <- Iter.ROTL r w ;; Iter.ROTL (32 - r) x) = Ok w)
  /\ (x <- Iter.ROTL 0 1 ;; Iter.ROTL (32 - 0) x) = Err (InvalidShift 32)
  /\ (x <- Rec.ROTL 0 1 ;; Rec.ROTL (32 - 0) x) = Err (InvalidShift 32).
Proof.
  split; [|split; vm_compute; reflexivity].
  intros H. specialize (H 1 0). vm_compute in H.
  assert (Hf : @Err Z (InvalidShift 32) = Ok 1); [|discriminate Hf].
  apply H; [split|split]; congruence.
Qed.

Lemma rotl_round_trip (w r : Z) :
  Spec.is_word w -> 0 < r < 32 -> Spec.rotl (32 - r) (Spec.rotl r w) = w.
Proof.
  intros Hw Hr.
  apply word_bits_eq; [apply rotl_word; [apply rotl_word|]; (assumption || lia) | assumption |].
  intros i Hi. rewrite rotl_testbit by (try apply rotl_word; assumption || lia).
  rewrite rotl_testbit; [|assumption|lia|apply Z.mod_pos_bound; lia].
  f_equal. rewrite Zminus_mod_idemp_l.
  replace (i - (32 - r) - r) with (i + (-1) * 32) by lia.
  rewrite Z.mod_add by lia. apply Z.mod_small. lia.
Qed.

(** C6, amended.  For every word [w] and every [r] in [1, 31], rotating left
    by [r] and then by [32 - r] returns [w]; at [r = 0] the first rotation
    returns [w] ([ROTL(0, w) == w]) and the second, by 32, throws "invalid
    left shift amount", as [ROTL(32, w)] always does.  In both files. *)
Theorem C6_rotation_round_trip (w r : Z) :
  Spec.is_word w -> 0 <= r <= 31 ->
  (x <- Iter.ROTL r w ;; Iter.ROTL (32 - r) x)
  = (if r =? 0 then Err (InvalidShift 32) else Ok w)
  /\ (x <- Rec.ROTL r w ;; Rec.ROTL (32 - r) x)
     = (if r =? 0 then Err (InvalidShift 32) else Ok w)
  /\ Iter.ROTL 0 w = Ok w /\ Rec.ROTL 0 w = Ok w
  /\ Iter.ROTL 32 w = Err (InvalidShift 32) /\ Rec.ROTL 32 w = Err (InvalidShift 32)
  /\ (1 <= r ->
      exists x, Iter.ROTL r w = Ok x /\ Rec.ROTL r w = Ok x
                /\ Iter.ROTL (32 - r) x = Ok w /\ Rec.ROTL (32 - r) x = Ok w).
Proof.
  intros Hw Hr.
  assert (H0 : Iter.ROTL 0 w = Ok w /\ Rec.ROTL 0 w = Ok w).
  { split; [apply (ROTL_zero _ Iter_uint32_mod) | apply (ROTL_zero _ Rec_uint32_mod)];
      assumption. }
  assert (H32 : Iter.ROTL 32 w = Err (InvalidShift 32)
                /\ Rec.ROTL 32 w = Err (InvalidShift 32)).
  { unfold Iter.ROTL, Rec.ROTL, ROTL. rewrite isUint32_word by assumption.
    split; reflexivity. }
  assert (Hpos : 1 <= r ->
                 exists x, Iter.ROTL r w = Ok x /\ Rec.ROTL r w = Ok x
                           /\ Iter.ROTL (32 - r) x = Ok w /\ Rec.ROTL (32 - r) x = Ok w).
  { intros H1. exists (Spec.rotl r w). unfold Iter.ROTL, Rec.ROTL.
    rewrite (ROTL_rotl _ Iter_uint32_mod r), (ROTL_rotl _ Rec_uint32_mod r)
      by (assumption || lia).
    rewrite (ROTL_rotl _ Iter_uint32_mod (32 - r)), (ROTL_rotl _ Rec_uint32_mod (32 - r))
      by (try apply rotl_word; assumption || lia).
    rewrite rotl_round_trip by (assumption || lia). repeat split; reflexivity. }
  destruct H0 as [HI0 HR0]. destruct H32 as [HI32 HR32].
  split; [|split; [|repeat split; assumption]].
  - destruct (Z.eqb_spec r 0) as [->|Hnz].
    + rewrite HI0. cbn [bind]. exact HI32.
    + destruct Hpos as (x & HI & _ & HI' & _); [lia|]. rewrite HI. cbn [bind]. exact HI'.
  - destruct (Z.eqb_spec r 0) as [->|Hnz].
    + rewrite HR0. cbn [bind]. exact HR32.
    + destruct Hpos as (x & _ & HR & _ & HR'); [lia|]. rewrite HR. cbn [bind]. exact HR'.
Qed.

Lemma C6_rotation_round_trip_witness :
  (x <- Iter.ROTL 5 0x67452301 ;; Iter.ROTL (32 - 5) x) = Ok 0x67452301
  /\ (x <- Rec.ROTL 5 0x67452301 ;; Rec.ROTL (32 - 5) x) = Ok 0x67452301.
Proof.
  destruct (C6_rotation_round_trip 0x67452301 5) as (HI & HR & _).
  - vm_compute. split; congruence.
  - vm_compute. split; congruence.
  - split; [exact HI | exact HR].
Defined.

(** The schedule of the specification obeys its recurrence. *)
Lemma expand_prefix (n : nat) (W : list Z) (t : nat) :
  (t < List.length W)%nat -> nth t (Spec.expand n W) 0 = nth t W 0.
Proof.
  intros Ht. induction n as [|n IH]; [reflexivity|].
  cbn [Spec.expand]. rewrite app_nth1 by (rewrite expand_length; lia). exact IH.
Qed.

Lemma expand_recurrence (n : nat) (W0 : list Z) (t : nat) :
  (16 <= List.length W0)%nat ->
  (List.length W0 <= t < List.length W0 + n)%nat ->
  let W := Spec.expand n W0 in
  nth t W 0 =
  Spec.rotl 1 (Z.lxor (Z.lxor (Z.lxor (nth (t - 3) W 0) (nth (t - 8) W 0))
                              (nth (t - 14) W 0))
                      (nth (t - 16) W 0)).
Proof.
  intros H16 Ht. induction n as [|n IH]; [lia|].
  cbn [Spec.expand]. cbv zeta.
  pose proof (expand_length n W0) as Hlen.
  destruct (Nat.eq_dec t (List.length W0 + n)) as [->|Hne].
  - rewrite <- Hlen. rewrite nth_middle.
    rewrite !app_nth1 by lia. reflexivity.
  - rewrite !app_nth1 by lia. apply IH. lia.
Qed.

(** C2.  On a state of five words and a block of 16 words, the compression
    step builds the 80-word schedule [W] (the block's words at 0..15, then
    W[t] = ROTL1(W[t-3] xor W[t-8] xor W[t-14] xor W[t-16])), runs the 80
    rounds of [Spec.round] (T = ROTL5(a) + f(t,b,c,d) + e + K(t) + W[t] mod
    2^32; e=d; d=c; c=ROTL30(b); b=a; a=T, with the selectors and constants
    of [Spec.f] and [Spec.K]) and returns the word-by-word wrapping sum of
    the state and the final variables; in [src/sha1.js] as in
    [src/unnamed/part_000], where the step is one unfolding of [digest]. *)
Theorem C2_compression_step (S block : list Z) :
  List.length S = 5%nat -> Forall Spec.is_word S ->
  List.length block = 16%nat -> Forall Spec.is_word block ->
  let W := Spec.schedule block in
  schedule Iter.uint32 block = Ok W
  /\ schedule Rec.uint32 block = Ok W
  /\ List.length W = 80%nat
  /\ (forall t, (t < 16)%nat -> nth t W 0 = nth t block 0)
  /\ (forall t, (16 <= t < 80)%nat ->
        nth t W 0 =
        Spec.rotl 1 (Z.lxor (Z.lxor (Z.lxor (nth (t - 3) W 0) (nth (t - 8) W 0))
                                    (nth (t - 14) W 0))
                            (nth (t - 16) W 0)))
  /\ Iter.digest block S = Ok (Spec.compress S block)
  /\ Rec.digest [block] S = Ok (Spec.compress S block)
  /\ (forall rest, Rec.digest (block :: rest) S = Rec.digest rest (Spec.compress S block)).
Proof.
  intros HS HSw Hb Hbw W.
  split; [exact (schedule_spec Iter.uint32 Iter_uint32_mod block Hb Hbw)|].
  split; [exact (schedule_spec Rec.uint32 Rec_uint32_mod block Hb Hbw)|].
  split; [unfold W, Spec.schedule; rewrite expand_length, Hb; reflexivity|].
  split.
  { intros t Ht. apply (expand_prefix 64 block t). rewrite Hb. exact Ht. }
  split.
  { intros t Ht. apply (expand_recurrence 64 block t); rewrite Hb; [apply Nat.le_refl|].
    exact Ht. }
  split; [exact (Iter_digest_spec block S Hb Hbw HS HSw)|].
  split.
  { rewrite (Rec_digest_step block [] S Hb Hbw HS HSw). reflexivity. }
  intros rest. exact (Rec_digest_step block rest S Hb Hbw HS HSw).
Qed.

Lemma C2_compression_step_witness :
  Iter.digest (repeat 0 16) init = Ok (Spec.compress init (repeat 0 16))
  /\ Rec.digest [repeat 0 16] init = Ok (Spec.compress init (repeat 0 16)).
Proof.
  destruct (C2_compression_step init (repeat 0 16)) as (_ & _ & _ & _ & _ & HI & HR & _).
  - reflexivity.
  - repeat constructor; vm_compute; congruence.
  - reflexivity.
  - repeat constructor; vm_compute; congruence.
  - split; assumption.
Defined.

(** ** The length trailer *)

Lemma le_digits_value (k : nat) (n : Z) :
  0 <= n ->
  fold_right (fun b acc => acc * 256 + b) 0
             (map (fun i => (n / 256 ^ Z.of_nat i) mod 256) (seq 0 k))
  = n mod 256 ^ Z.of_nat k.
Proof.
  revert n. induction k as [|k IH]; intros n Hn.
  - cbn. now rewrite Z.mod_1_r.
  - cbn [seq map fold_right]. rewrite <- seq_shift, map_map.
    rewrite (map_ext _ (fun i => (n / 256 / 256 ^ Z.of_nat i) mod 256)).
    + rewrite IH by (apply Z.div_pos; lia).
      rewrite Z.pow_0_r, Z.div_1_r, Nat2Z.inj_succ, Z.pow_succ_r by lia.
      rewrite Z.rem_mul_r by lia. lia.
    + intros i. rewrite Nat2Z.inj_succ, Z.pow_succ_r by lia.
      now rewrite Z.div_div by lia.
Qed.

(** Read back most significant byte first, the trailer is the number. *)
Lemma be_value_be64 (n : Z) : 0 <= n < 2 ^ 64 -> Spec.be_value (Spec.be64 n) = n.
Proof.
  intros Hn. unfold Spec.be_value.
  change (Spec.be64 n)
    with (rev (map (fun i => (n / 256 ^ Z.of_nat i) mod 256) (seq 0 8))).
  rewrite <- (fold_left_rev_right (fun b acc => acc * 256 + b)), rev_involutive.
  rewrite le_digits_value by lia. apply Z.mod_small.
  change (256 ^ Z.of_nat 8) with (2 ^ 64). lia.
Qed.

(** C3.  For every byte sequence [m] of length [L] with [L * 8] below 2^64
    the padder produces [m], then the byte 0x80, then [k] zero bytes, then
    the 8-byte big-endian encoding of [L * 8], where
    [k = 64 * n - 9 - L] for [n = ceil((L + 9) / 64)] is the least
    [k >= 0] that makes [L + 1 + k + 8] a multiple of 64; the output length
    is a positive multiple of 64.  In both files. *)
Theorem C3_padding (m : list Z) :
  let L := Z.of_nat (List.length m) in
  L * 8 < 2 ^ 64 ->
  exists n k trailer,
    (* n = ceil((L + 9) / 64) and k = 64 * n - 9 - L *)
    64 * (n - 1) < L + 9 <= 64 * n /\ k = 64 * n - 9 - L
    (* k is the least k >= 0 with L + 1 + k + 8 a multiple of 64 *)
    /\ 0 <= k /\ (L + 1 + k + 8) mod 64 = 0
    /\ (forall k', 0 <= k' -> (L + 1 + k' + 8) mod 64 = 0 -> k <= k')
    (* the trailer is the 8-byte big-endian encoding of L * 8 *)
    /\ trailer = Spec.be64 (L * 8)
    /\ List.length trailer = 8%nat /\ Forall Spec.is_byte trailer
    /\ Spec.be_value trailer = L * 8
    (* what the padder produces *)
    /\ Iter.padMessage (m, Ok tt) = (m ++ [0x80] ++ repeat 0 (Z.to_nat k) ++ trailer, Ok tt)
    /\ Rec.padMessage m = Ok (m ++ [0x80] ++ repeat 0 (Z.to_nat k) ++ trailer)
    /\ (exists blocks, (0 < blocks)%nat /\
          List.length (m ++ [0x80] ++ repeat 0 (Z.to_nat k) ++ trailer) = (64 * blocks)%nat).
Proof.
  intros L HL.
  exists (JS.ceil_div (L + 9) 64), (Spec.zero_count L), (Spec.be64 (L * 8)).
  pose proof (zero_count_formula L) as Hk. unfold blockSizeBytes in Hk.
  pose proof (zero_count_range L) as Hr.
  split; [lia|]. split; [lia|]. split; [lia|].
  split; [apply zero_count_multiple|].
  split; [apply zero_count_least|].
  split; [reflexivity|]. split; [reflexivity|]. split; [apply be64_bytes|].
  split; [apply be_value_be64; lia|].
  split; [apply Iter_padMessage_spec|].
  split; [apply Rec_padMessage_spec|].
  apply pad_blocks.
Qed.

Lemma C3_padding_witness :
  let m := [97; 98; 99] in
  let L := 3 in
  exists n k trailer,
    64 * (n - 1) < L + 9 <= 64 * n /\ k = 64 * n - 9 - L
    /\ 0 <= k /\ (L + 1 + k + 8) mod 64 = 0
    /\ (forall k', 0 <= k' -> (L + 1 + k' + 8) mod 64 = 0 -> k <= k')
    /\ trailer = Spec.be64 (L * 8)
    /\ List.length trailer = 8%nat /\ Forall Spec.is_byte trailer
    /\ Spec.be_value trailer = L * 8
    /\ Iter.padMessage (m, Ok tt) = (m ++ [0x80] ++ repeat 0 (Z.to_nat k) ++ trailer, Ok tt)
    /\ Rec.padMessage m = Ok (m ++ [0x80] ++ repeat 0 (Z.to_nat k) ++ trailer)
    /\ (exists blocks, (0 < blocks)%nat /\
          List.length (m ++ [0x80] ++ repeat 0 (Z.to_nat k) ++ trailer) = (64 * blocks)%nat).
Proof.
  apply (C3_padding [97; 98; 99]). vm_compute. reflexivity.
Defined.

(** ** Draining a generator *)

Lemma drain_loop {Y : Type} (ys acc : list Y) :
  fold_result (fun acc y => Ok (acc ++ [y])) ys acc = Ok (acc ++ ys).
Proof.
  revert acc. induction ys as [|y ys IH]; intros acc; cbn [fold_result bind].
  - now rewrite app_nil_r.
  - rewrite IH, <- app_assoc. reflexivity.
Qed.

Lemma drain_ok {Y : Type} (ys : list Y) : drain (ys, Ok tt) = Ok ys.
Proof. unfold drain, for_of. cbn [yielded outcome fst snd]. now rewrite drain_loop. Qed.

Lemma drain_error {Y : Type} (ys : list Y) (e : error) : drain (ys, Err e) = Err e.
Proof. unfold drain, for_of. cbn [yielded outcome fst snd]. now rewrite drain_loop. Qed.

(** C4, as the specification states it, fails for the generator of
    [src/sha1.js] on 65 bytes: one block is handed to the loop that reads
    the generator (whose body runs on it) before "incomplete block" is
    thrown, so the error does not come instead of the blocks. *)
Lemma C4_counterexample :
  let stream := repeat 0 65 in
  (List.length stream mod 64 =? 0)%nat = false
  /\ yielded (Iter.blocks (stream, Ok tt)) = [repeat 0 16]
  /\ outcome (Iter.blocks (stream, Ok tt)) = Err IncompleteBlock
  /\ yielded (Iter.blocks (stream, Ok tt)) <> []
  /\ for_of (Iter.blocks (stream, Ok tt))
            (fun (_ : unit) block => Err (NotUint32 (Z.of_nat (List.length block)))) tt
     = Err (NotUint32 16).
Proof.
  intros stream.
  assert (Hy : yielded (Iter.blocks (stream, Ok tt)) = [repeat 0 16])
    by (vm_compute; reflexivity).
  split; [reflexivity|]. split; [exact Hy|].
  split; [vm_compute; reflexivity|]. split; [rewrite Hy; discriminate|].
  vm_compute. reflexivity.
Qed.

(** C4, amended.  A byte sequence whose length is a multiple of 64 is cut
    into its consecutive 64-byte chunks, in order and with none left over,
    and each chunk into 16 words of 4 bytes, most significant byte first.
    For another length the parser ends with "incomplete block":
    [src/unnamed/part_000] returns no blocks; the generator of [src/sha1.js]
    first yields the [len / 64] complete blocks to its reader and then
    throws, so that a caller who drains it gets the error and no list of
    blocks.  [words] throws "incomplete word" on a sequence whose length is
    not a multiple of 4. *)
Theorem C4_block_parser (stream : list Z) :
  (if (List.length stream mod 64 =? 0)%nat
   then
     Rec.blocks stream = Ok (Spec.parse stream)
     /\ Iter.blocks (stream, Ok tt) = (Spec.parse stream, Ok tt)
     /\ drain (Iter.blocks (stream, Ok tt)) = Ok (Spec.parse stream)
     /\ List.concat (Spec.chunks 64 stream) = stream
     /\ Forall (fun chunk => List.length chunk = 64%nat) (Spec.chunks 64 stream)
     /\ Forall (fun block => List.length block = 16%nat) (Spec.parse stream)
   else
     Rec.blocks stream = Err IncompleteBlock
     /\ Iter.blocks (stream, Ok tt) = (Spec.parse stream, Err IncompleteBlock)
     /\ List.length (Spec.parse stream) = (List.length stream / 64)%nat
     /\ (forall (S : Type) (body : S -> list Z -> result S) (s : S),
           for_of (Iter.blocks (stream, Ok tt)) body s
           = (s' <- fold_result body (Spec.parse stream) s ;; Err IncompleteBlock))
     /\ outcome (Iter.blocks (stream, Ok tt)) = Err IncompleteBlock
     /\ drain (Iter.blocks (stream, Ok tt)) = Err IncompleteBlock)
  /\ words stream
     = (if (List.length stream mod 4 =? 0)%nat
        then Ok (map Spec.be32 (Spec.chunks 4 stream))
        else Err IncompleteWord)
  /\ (forall b0 b1 b2 b3,
        words [b0; b1; b2; b3] = Ok [b0 * 2 ^ 24 + b1 * 2 ^ 16 + b2 * 2 ^ 8 + b3]).
Proof.
  split; [|split].
  - rewrite Iter_blocks_spec.
    destruct (Nat.eqb_spec (List.length stream mod 64) 0) as [E|E].
    + apply Nat.Div0.div_exact in E.
      split; [apply (Rec_blocks_spec _ _ E)|]. split; [reflexivity|].
      split; [apply drain_ok|].
      split; [apply (concat_chunks 64 (List.length stream / 64)); lia|].
      split; [|apply parse_blocks].
      apply Forall_forall. intros c Hc. apply (chunks_size 64 stream c); [lia|exact Hc].
    + split; [now apply Rec_blocks_incomplete|]. split; [reflexivity|].
      split; [unfold Spec.parse; now rewrite length_map, chunks_count|].
      split; [reflexivity|]. split; [reflexivity|].
      apply drain_error.
  - destruct (Nat.eqb_spec (List.length stream mod 4) 0) as [E|E].
    + apply Nat.Div0.div_exact in E. apply (words_spec _ _ E).
    + now apply words_incomplete.
  - intros b0 b1 b2 b3. rewrite (words_spec 1) by reflexivity. reflexivity.
Qed.

(** ** Strings with code units above 0xFF *)

(** On every string [sha1] of [src/sha1.js] returns a digest; [sha1] of
    [src/unnamed/part_000] returns the same digest, unless some group of four
    values of the padded sequence makes a number that is not a word, which
    [block.forEach(checkUint32)] refuses. *)
Lemma sha1_string_cases (s : JS.str) :
  exists h,
    Iter.sha1 (JS.Str s) = Ok (map JS.toString16 h)
    /\ List.length h = 5%nat
    /\ (Rec.sha1 (JS.Str s) = Ok (map JS.toString16 h)
        \/ exists w, ~ Spec.is_word w
                     /\ In w (List.concat (Spec.parse (Spec.pad (map JS.charCode s))))
                     /\ Rec.sha1 (JS.Str s) = Err (NotUint32 w)).
Proof.
  destruct init_words as [Hi5 Hiw].
  pose proof (parse_blocks (Spec.pad (map JS.charCode s))) as H16.
  destruct (Rec_digest_cases _ init H16 Hi5 Hiw) as [[Hw Hd] | (w & Hnw & Hin & Hd)].
  - exists (fold_left Spec.compress (Spec.parse (Spec.pad (map JS.charCode s))) init).
    split; [|split; [apply fold_compress_words; assumption|]].
    + rewrite Iter_sha1_loop, Iter_fold_spec; try assumption; [reflexivity|].
      rewrite Forall_forall in *. intros b Hb. split; [now apply H16 | now apply Hw].
    + left. rewrite Rec_sha1_digest, Hd. reflexivity.
  - destruct (Iter_sha1_defined s) as (h & Hh & H5 & _).
    exists h. split; [assumption|]. split; [assumption|].
    right. exists w. split; [assumption|]. split; [assumption|].
    rewrite Rec_sha1_digest, Hd. reflexivity.
Qed.

(** C5.  The two versions do not behave the same on every string.  On the
    one-unit string U+0100 the padded sequence starts 256, 128, 0, 0, which
    [words] makes the number 4303355904 = 2^32 + 0x800000:
    [src/unnamed/part_000] checks the block ([block.forEach(checkUint32)])
    and throws "not uint32: 4303355904", while [src/sha1.js], which has
    lost that check, returns a digest. *)
Theorem C5_versions_diverge :
  let v := JS.Str [JS.CodeUnit x01 x00] in
  Iter.bytes v = ([256], Ok tt) /\ Rec.bytes v = Ok [256]
  /\ words [256; 128; 0; 0] = Ok [4303355904]
  /\ Iter.sha1 v = Ok ["5ba93c9d"; "b0cff93f"; "52b521d7"; "420e43f6"; "eda2784f"]%string
  /\ Rec.sha1 v = Err (NotUint32 4303355904)
  /\ ~ ((exists d, Rec.sha1 v = Ok d /\ Iter.sha1 v = Ok d)
        \/ ((exists e, Rec.sha1 v = Err e) /\ (exists e, Iter.sha1 v = Err e))).
Proof.
  intros v.
  assert (HI : Iter.sha1 v
               = Ok ["5ba93c9d"; "b0cff93f"; "52b521d7"; "420e43f6"; "eda2784f"]%string)
    by (vm_compute; reflexivity).
  assert (HR : Rec.sha1 v = Err (NotUint32 4303355904)) by (vm_compute; reflexivity).
  split; [vm_compute; reflexivity|]. split; [vm_compute; reflexivity|].
  split; [vm_compute; reflexivity|].
  split; [exact HI|]. split; [exact HR|].
  rewrite HI, HR. intros [(d & Hd & _) | (_ & (e & He))]; discriminate.
Qed.

(** C7.  Values above 255 are not rejected.  [bytes], which is to produce
    a list of bytes, hands on the character code of every code unit as it
    is, for every string and in both files; on the string "a" followed by
    U+0100 it hands on 97 and 256, and both versions return a digest
    computed from them: the digest of the different string "b" followed by
    U+0000, whose bytes 98 and 0 make the same first word. *)
Theorem C7_out_of_range_bytes_digested :
  let s := [JS.of_ascii "a"; JS.CodeUnit x01 x00] in
  let s' := [JS.of_ascii "b"; JS.CodeUnit x00 x00] in
  Iter.bytes (JS.Str s) = ([97; 256], Ok tt)
  /\ Rec.bytes (JS.Str s) = Ok [97; 256]
  /\ Iter.sha1 (JS.Str s)
     = Ok ["4609d79f"; "e2fad95c"; "38b6da64"; "fc671e85"; "94984d4c"]%string
  /\ Rec.sha1 (JS.Str s)
     = Ok ["4609d79f"; "e2fad95c"; "38b6da64"; "fc671e85"; "94984d4c"]%string
  /\ Iter.bytes (JS.Str s') = ([98; 0], Ok tt)
  /\ Iter.sha1 (JS.Str s') = Iter.sha1 (JS.Str s)
  /\ Rec.sha1 (JS.Str s') = Rec.sha1 (JS.Str s)
  /\ (forall x : JS.str,
        Iter.bytes (JS.Str x) = (map JS.charCode x, Ok tt)
        /\ Rec.bytes (JS.Str x) = Ok (map JS.charCode x)).
Proof.
  intros s s'.
  split; [vm_compute; reflexivity|]. split; [vm_compute; reflexivity|].
  split; [vm_compute; reflexivity|]. split; [vm_compute; reflexivity|].
  split; [vm_compute; reflexivity|]. split; [vm_compute; reflexivity|].
  split; [vm_compute; reflexivity|].
  intros x. split; [apply Iter_bytes_string | reflexivity].
Qed.

(** C8.  For every input that is not a string [sha1] throws "unsupported
    input type" with the type's name, before a single byte is produced, and
    returns no digest; for a string this error is never thrown.  In both
    files. *)
Theorem C8_unsupported_input (v : JS.value) :
  ((forall s, v <> JS.Str s) ->
     let e := UnsupportedInputType (JS.typeof v) in
     Iter.bytes v = ([], Err e) /\ Rec.bytes v = Err e
     /\ Iter.sha1 v = Err e /\ Rec.sha1 v = Err e)
  /\ (forall s, v = JS.Str s ->
        JS.typeof v = "string"%string
        /\ outcome (Iter.bytes v) = Ok tt
        /\ (exists b, Rec.bytes v = Ok b)
        /\ (forall e, Iter.sha1 v = Err e -> is_unsupported_input_type e = false)
        /\ (forall e, Rec.sha1 v = Err e -> is_unsupported_input_type e = false)).
Proof.
  split.
  - intros Hv e. destruct (Iter_sha1_not_string v Hv) as [Hb Hs].
    split; [exact Hb|]. split; [|split; [exact Hs | now apply Rec_sha1_not_string]].
    destruct v; try reflexivity. now destruct (Hv s).
  - intros s ->. split; [reflexivity|].
    split; [now rewrite Iter_bytes_string|]. split; [eexists; reflexivity|].
    destruct (sha1_string_cases s) as (h & HI & _ & [HR | (w & _ & _ & HR)]);
      rewrite HI, HR; split; intros e [= <-]; reflexivity.
Qed.

Lemma C8_unsupported_input_witness :
  Iter.sha1 (JS.Number 3) = Err (UnsupportedInputType "number")
  /\ Rec.sha1 (JS.Number 3) = Err (UnsupportedInputType "number").
Proof.
  destruct (C8_unsupported_input (JS.Number 3)) as [H _].
  destruct H as (_ & _ & HI & HR); [discriminate|].
  split; assumption.
Defined.

(** ** The round index *)

Lemma in_range (lo hi t : Z) : In t (JS.range lo hi) -> lo <= t < hi.
Proof.
  unfold JS.range. intros H. apply in_map_iff in H.
  destruct H as (i & <- & Hi). apply in_seq in Hi. lia.
Qed.

(** An error of a loop is an error of one of its turns. *)
Lemma fold_result_error {S X : Type} (P : error -> Prop)
      (body : S -> X -> result S) (xs : list X) :
  (forall s x e, In x xs -> body s x = Err e -> P e) ->
  forall s e, fold_result body xs s = Err e -> P e.
Proof.
  induction xs as [|x xs IH]; intros Hbody s e H; [discriminate|].
  cbn [fold_result] in H. destruct (body s x) as [s'|e'] eqn:Hb.
  - cbn [bind] in H. eapply IH; [|exact H].
    intros s0 x0 e0 Hin. apply Hbody. now right.
  - cbn [bind] in H. injection H as <-. eapply Hbody; [now left | exact Hb].
Qed.

Section RoundIndex.

Variable uint32 : Z -> Z.
Hypothesis uint32_mod : forall v, uint32 v = v mod 2 ^ 32.

Ltac branches :=
  repeat match goal with
         | |- context [if ?b then _ else _] => destruct b; cbn [bind negb]
         end.

(** With [t] in [0, 79] a round throws neither "invalid f[i] number" nor
    "invalid K[i] number", whatever the variables hold. *)
Lemma round_index_in_range (W : list Z) (v : Z * Z * Z * Z * Z) (t : Z) (e : error) :
  0 <= t <= 79 -> round uint32 W v t = Err e -> is_invalid_round_index e = false.
Proof.
  intros Ht. destruct v as [[[[a b] c] d] e0].
  unfold round, ROTL, f, K, checkUint32.
  rewrite (round_guard t Ht).
  branches; intros [= <-]; reflexivity.
Qed.

Lemma rounds_index_in_range (block sum : list Z) (e : error) :
  rounds uint32 block sum = Err e -> is_invalid_round_index e = false.
Proof.
  unfold rounds. destruct (schedule_defined uint32 uint32_mod block) as (W & -> & _).
  cbn [bind].
  destruct sum as [|a [|b [|c [|d [|e0 [|]]]]]]; try (intros [= <-]; reflexivity).
  destruct (fold_result (round uint32 W) (JS.range 0 80) (a, b, c, d, e0))
    as [[[[[a' b'] c'] d'] e']|e1] eqn:Hloop; cbn [bind]; [discriminate|].
  intros [= <-].
  apply (fold_result_error (fun e => is_invalid_round_index e = false)
                           (round uint32 W) (JS.range 0 80)) in Hloop; [exact Hloop|].
  intros s t e2 Hin. apply round_index_in_range. apply in_range in Hin. lia.
Qed.

End RoundIndex.

Lemma Iter_digest_index (block sum : list Z) (e : error) :
  Iter.digest block sum = Err e -> is_invalid_round_index e = false.
Proof.
  unfold Iter.digest. destruct (negb _); [intros [= <-]; reflexivity|].
  destruct (rounds Iter.uint32 block sum) as [abcde|e1] eqn:Hr; cbn [bind]; [discriminate|].
  intros [= <-]. apply (rounds_index_in_range _ Iter_uint32_mod _ _ _ Hr).
Qed.

Lemma Rec_digest_index (blocks : list (list Z)) (sum : list Z) (e : error) :
  Rec.digest blocks sum = Err e -> is_invalid_round_index e = false.
Proof.
  revert sum. induction blocks as [|block rest IH]; intros sum; [discriminate|].
  cbn [Rec.digest]. destruct (negb _); [intros [= <-]; reflexivity|].
  destruct (check_block block) as [[_ ->] | (w & _ & _ & ->)]; cbn [bind];
    [|intros [= <-]; reflexivity].
  destruct (rounds Rec.uint32 block sum) as [abcde|e1] eqn:Hr; cbn [bind]; [apply IH|].
  intros [= <-]. apply (rounds_index_in_range _ Rec_uint32_mod _ _ _ Hr).
Qed.

(** C9.  [K] throws "invalid K[i] number" exactly when [t < 0] or [t > 79],
    and so does [f] ("invalid f[i] number") on words; the rounds call them
    with [t] from 0 to 79 only, so that no digest computation ends with one
    of these errors.  In both files. *)
Theorem C9_round_index (t B C D : Z) :
  Spec.is_word B -> Spec.is_word C -> Spec.is_word D ->
  (K t = Err (InvalidK t) <-> t < 0 \/ t > 79)
  /\ (forall e, K t = Err e -> e = InvalidK t)
  /\ (Iter.f t B C D = Err (InvalidF t) <-> t < 0 \/ t > 79)
  /\ (Rec.f t B C D = Err (InvalidF t) <-> t < 0 \/ t > 79)
  /\ (forall e, Iter.f t B C D = Err e \/ Rec.f t B C D = Err e -> e = InvalidF t)
  /\ Forall (fun t => 0 <= t <= 79) (JS.range 0 80)
  /\ (forall block sum e, Iter.digest block sum = Err e -> is_invalid_round_index e = false)
  /\ (forall blocks sum e, Rec.digest blocks sum = Err e -> is_invalid_round_index e = false)
  /\ (forall v e, Iter.sha1 v = Err e -> is_invalid_round_index e = false)
  /\ (forall v e, Rec.sha1 v = Err e -> is_invalid_round_index e = false).
Proof.
  intros HB HC HD.
  assert (Hguard : (t <? 0) || (t >? 79) = true <-> t < 0 \/ t > 79).
  { rewrite orb_true_iff, Z.ltb_lt, Z.gtb_ltb, Z.ltb_lt. lia. }
  assert (HK : (K t = Err (InvalidK t) <-> t < 0 \/ t > 79)
               /\ (forall e, K t = Err e -> e = InvalidK t)).
  { unfold K. destruct ((t <? 0) || (t >? 79)) eqn:G.
    - split; [tauto | now intros e [= <-]].
    - split.
      + split; [|intros H; apply Hguard in H; discriminate].
        destruct (t <? 20), (t <? 40), (t <? 60); discriminate.
      + intros e. destruct (t <? 20), (t <? 40), (t <? 60); discriminate. }
  assert (Hf : forall uint32,
             (f uint32 t B C D = Err (InvalidF t) <-> t < 0 \/ t > 79)
             /\ (forall e, f uint32 t B C D = Err e -> e = InvalidF t)).
  { intros uint32. unfold f. rewrite !checkUint32_word by assumption. cbn [bind].
    destruct ((t <? 0) || (t >? 79)) eqn:G.
    - split; [tauto | now intros e [= <-]].
    - split.
      + split; [|intros H; apply Hguard in H; discriminate].
        destruct (t <? 20), (t <? 40), (t <? 60); discriminate.
      + intros e. destruct (t <? 20), (t <? 40), (t <? 60); discriminate. }
  split; [apply HK|]. split; [apply HK|].
  split; [apply (Hf Iter.uint32)|]. split; [apply (Hf Rec.uint32)|].
  split; [intros e [H|H]; [apply (Hf Iter.uint32) | apply (Hf Rec.uint32)]; exact H|].
  split; [apply Forall_forall; intros t' Ht'; apply in_range in Ht'; lia|].
  split; [apply Iter_digest_index|]. split; [apply Rec_digest_index|].
  split.
  - intros v e. destruct v as [| |b|n|s|]; try (intros [= <-]; reflexivity).
    destruct (Iter_sha1_defined s) as (h & -> & _). discriminate.
  - intros v e. destruct v as [| |b|n|s|]; try (intros [= <-]; reflexivity).
    destruct (sha1_string_cases s) as (h & _ & _ & [-> | (w & _ & _ & ->)]);
      [discriminate | intros [= <-]; reflexivity].
Qed.

Lemma C9_round_index_witness :
  K 80 = Err (InvalidK 80) /\ Iter.f 80 0 0 0 = Err (InvalidF 80)
  /\ Rec.f (-1) 0 0 0 = Err (InvalidF (-1)).
Proof.
  assert (H0 : Spec.is_word 0) by (vm_compute; split; congruence).
  destruct (C9_round_index 80 0 0 0 H0 H0 H0) as (HK & _ & HI & _).
  destruct (C9_round_index (-1) 0 0 0 H0 H0 H0) as (_ & _ & _ & HR & _).
  split; [apply HK; right; reflexivity|].
  split; [apply HI; right; reflexivity | apply HR; left; reflexivity].
Defined.

(** * Further properties of the code *)

(** X1.  [uint32] of both files reduces an integer modulo 2^32, for every
    [v] from -2^31 to below 2^53: the values the program passes to it, on
    which the arithmetic of the source is exact and the recursion of
    [src/sha1.js] on a negative value makes one call; [modulo] of
    [src/unnamed/part_000] floors.  The result is a uint32, and a uint32 is
    returned as it is. *)
Theorem X1_uint32_modulo (v : Z) :
  - 2 ^ 31 <= v < 2 ^ 53 ->
  Iter.uint32 v = v mod 2 ^ 32
  /\ Rec.uint32 v = v mod 2 ^ 32
  /\ Rec.modulo v (2 ^ 32) = v mod 2 ^ 32
  /\ isUint32 (Iter.uint32 v) = true
  /\ (v < 0 -> Iter.uint32 v = v + 2 ^ 32)
  /\ (isUint32 v = true -> Iter.uint32 v = v).
Proof.
  intros Hv.
  split; [apply Iter_uint32_mod|]. split; [apply Rec_uint32_mod|].
  split; [apply Rec_uint32_mod|].
  split; [apply isUint32_word, (uint32_word _ Iter_uint32_mod)|].
  split.
  - intros Hneg. rewrite Iter_uint32_mod. symmetry.
    apply (Z.mod_unique_pos v (2 ^ 32) (-1)); lia.
  - intros Hu. rewrite Iter_uint32_mod. apply word_mod32, isUint32_iff, Hu.
Qed.

Lemma X1_uint32_modulo_witness :
  Iter.uint32 (-5) = (-5) mod 2 ^ 32 /\ Iter.uint32 (-5) = 4294967291.
Proof.
  destruct (X1_uint32_modulo (-5)) as (H1 & _ & _ & _ & H5 & _); [lia|].
  split; [exact H1 | apply H5; lia].
Defined.

(** X2.  [ROTL] checks the value first and the amount second; on a word and
    an amount in [0, 31] it returns the word whose bit [i] is bit
    [(i - times) mod 32] of the value. *)
Theorem X2_ROTL_behaviour (times value : Z) :
  (isUint32 value = false ->
     Iter.ROTL times value = Err (NotUint32 value)
     /\ Rec.ROTL times value = Err (NotUint32 value))
  /\ (isUint32 value = true -> times < 0 \/ 32 <= times ->
        Iter.ROTL times value = Err (InvalidShift times)
        /\ Rec.ROTL times value = Err (InvalidShift times))
  /\ (isUint32 value = true -> 0 <= times < 32 ->
        exists r, Iter.ROTL times value = Ok r /\ Rec.ROTL times value = Ok r
                  /\ isUint32 r = true
                  /\ forall i, 0 <= i < 32 ->
                               Z.testbit r i = Z.testbit value ((i - times) mod 32)).
Proof.
  unfold Iter.ROTL, Rec.ROTL, ROTL. split; [|split].
  - intros ->. split; reflexivity.
  - intros -> Ht. cbn [negb].
    assert (G : (times <? 0) || (times >=? 32) = true).
    { apply orb_true_iff. rewrite Z.ltb_lt, Z.geb_leb, Z.leb_le. lia. }
    rewrite G. split; reflexivity.
  - intros Hv Ht. apply isUint32_iff in Hv.
    destruct (Z.eq_dec times 0) as [->|Hnz].
    + exists value.
      pose proof (ROTL_zero _ Iter_uint32_mod value Hv) as HI.
      pose proof (ROTL_zero _ Rec_uint32_mod value Hv) as HR.
      unfold ROTL in HI, HR. split; [exact HI|]. split; [exact HR|].
      split; [now apply isUint32_word|].
      intros i Hi. rewrite Z.sub_0_r, Z.mod_small by lia. reflexivity.
    + exists (Spec.rotl times value).
      pose proof (ROTL_rotl _ Iter_uint32_mod times value Hv) as HI.
      pose proof (ROTL_rotl _ Rec_uint32_mod times value Hv) as HR.
      unfold ROTL in HI, HR. split; [apply HI; lia|]. split; [apply HR; lia|].
      split; [apply isUint32_word, rotl_word; [assumption|lia]|].
      intros i Hi. apply rotl_testbit; [assumption|lia|assumption].
Qed.

Lemma X2_ROTL_behaviour_witness :
  Iter.ROTL 32 1 = Err (InvalidShift 32) /\ Rec.ROTL 32 1 = Err (InvalidShift 32).
Proof.
  destruct (X2_ROTL_behaviour 32 1) as (_ & H & _).
  apply H; [reflexivity | right; discriminate].
Defined.

(** X3.  [distribute] throws "negative length" on a negative number; on
    any other it returns the digits of the number in base 256, least
    significant first, with no zero digit at the end (none at all for 0). *)
Theorem X3_distribute_digits (n : Z) :
  (n < 0 -> distribute n = Err NegativeLength)
  /\ (0 <= n ->
      exists d, distribute n = Ok d
                /\ Forall Spec.is_byte d
                /\ fold_right (fun b acc => b + 256 * acc) 0 d = n
                /\ last d 1 <> 0).
Proof.
  split.
  - intros Hn. rewrite distribute_eqn. now rewrite (proj2 (Z.ltb_lt _ _) Hn).
  - intros Hn. revert Hn.
    induction n as [n IH] using (well_founded_induction (Z.lt_wf 0)). intros Hn.
    rewrite distribute_eqn. rewrite (proj2 (Z.ltb_ge _ _)) by lia.
    destruct (Z.eqb_spec n 0) as [->|Hnz].
    + exists []. repeat split; [constructor | discriminate].
    + assert (Hd : 0 <= n / 256 < n)
        by (split; [apply Z.div_pos | apply Z.div_lt]; lia).
      destruct (IH (n / 256)) as (d & Hdist & Hbytes & Hval & Hlast); [lia | lia |].
      exists (n mod 256 :: d). rewrite Hdist. split; [reflexivity|].
      split; [constructor; [apply Z.mod_pos_bound; lia | assumption]|].
      split.
      * cbn [fold_right]. rewrite Hval. rewrite (Z.div_mod n 256) at 3 by lia. lia.
      * destruct d as [|b d]; [|exact Hlast].
        cbn [fold_right] in Hval. cbn [last].
        rewrite (Z.div_mod n 256) in Hnz by lia. lia.
Qed.

Lemma X3_distribute_digits_witness : distribute (-1) = Err NegativeLength.
Proof. apply (X3_distribute_digits (-1)). reflexivity. Defined.

(** X4.  The length trailer is always eight bytes: the 64-bit big-endian
    encoding of [length * 8] cut to its low 64 bits, in both files; a
    negative length makes [addLength] throw "negative length" (before
    anything is yielded, in [src/sha1.js]). *)
Theorem X4_length_trailer (L : Z) :
  (0 <= L ->
   exists trailer,
     Iter.addLength L = (trailer, Ok tt)
     /\ (forall stream, Rec.addLength stream L = Ok (stream ++ trailer))
     /\ List.length trailer = 8%nat
     /\ Forall Spec.is_byte trailer
     /\ Spec.be_value trailer = (L * 8) mod 2 ^ 64)
  /\ (L < 0 ->
      Iter.addLength L = ([], Err NegativeLength)
      /\ forall stream, Rec.addLength stream L = Err NegativeLength).
Proof.
  split.
  - intros HL. exists (Spec.be64 (L * 8)).
    split; [now apply Iter_addLength_spec|]. split.
    { intros stream. unfold Rec.addLength.
      destruct (distribute_spec (L * 8)) as (d & Hd & Hk); [lia|].
      rewrite Hd. cbn [bind]. rewrite Hk. reflexivity. }
    split; [reflexivity|]. split; [apply be64_bytes|].
    unfold Spec.be_value.
    change (Spec.be64 (L * 8))
      with (rev (map (fun i => (L * 8 / 256 ^ Z.of_nat i) mod 256) (seq 0 8))).
    rewrite <- (fold_left_rev_right (fun b acc => acc * 256 + b)), rev_involutive.
    rewrite le_digits_value by lia. reflexivity.
  - intros HL.
    assert (Hd : distribute (L * 8) = Err NegativeLength).
    { rewrite distribute_eqn. now rewrite (proj2 (Z.ltb_lt _ _)) by lia. }
    unfold Iter.addLength, Rec.addLength. rewrite Hd. split; reflexivity.
Qed.

Lemma X4_length_trailer_witness :
  Iter.addLength (-1) = ([], Err NegativeLength).
Proof. apply (X4_length_trailer (-1)). reflexivity. Defined.

(** ** Padding can be undone *)

Lemma pad_split (m : list Z) :
  Spec.pad m
  = (m ++ [0x80] ++ repeat 0 (Z.to_nat (Spec.zero_count (Z.of_nat (List.length m)))))
      ++ Spec.be64 (Z.of_nat (List.length m) * 8).
Proof. unfold Spec.pad. cbv zeta. now rewrite <- !app_assoc. Qed.

Lemma pad_trailer (m : list Z) :
  skipn (List.length (Spec.pad m) - 8) (Spec.pad m)
  = Spec.be64 (Z.of_nat (List.length m) * 8).
Proof.
  rewrite pad_split at 2. rewrite pad_split at 1.
  rewrite length_app, be64_length, Nat.add_sub.
  rewrite skipn_app, Nat.sub_diag, skipn_all. reflexivity.
Qed.

Lemma pad_message (m : list Z) : firstn (List.length m) (Spec.pad m) = m.
Proof.
  unfold Spec.pad. cbv zeta.
  rewrite firstn_app, Nat.sub_diag, firstn_all. cbn [firstn]. apply app_nil_r.
Qed.

(** X5.  From the padder's output the message is recovered: the last eight
    bytes, read big-endian and divided by 8, give the length [L], the first
    [L] bytes are the message, and the byte after them is 0x80.  So the
    padder (of either file) never maps two messages to one output. *)
Theorem X5_padding_undone (m m' : list Z) :
  Z.of_nat (List.length m) * 8 < 2 ^ 64 ->
  Z.of_nat (List.length m') * 8 < 2 ^ 64 ->
  exists p,
    Rec.padMessage m = Ok p /\ Iter.padMessage (m, Ok tt) = (p, Ok tt)
    /\ Spec.be_value (skipn (List.length p - 8) p) / 8 = Z.of_nat (List.length m)
    /\ firstn (List.length m) p = m
    /\ nth (List.length m) p 0 = 0x80
    /\ (Rec.padMessage m' = Ok p -> m' = m)
    /\ (Iter.padMessage (m', Ok tt) = (p, Ok tt) -> m' = m).
Proof.
  intros Hm Hm'. exists (Spec.pad m).
  assert (Hlen : forall x, Z.of_nat (List.length x) * 8 < 2 ^ 64 ->
                           Spec.be_value (skipn (List.length (Spec.pad x) - 8) (Spec.pad x)) / 8
                           = Z.of_nat (List.length x)).
  { intros x Hx. rewrite pad_trailer, be_value_be64 by lia. apply Z.div_mul. lia. }
  assert (Hinj : Spec.pad m' = Spec.pad m -> m' = m).
  { intros E. pose proof (Hlen m' Hm') as H1. rewrite E, (Hlen m Hm) in H1.
    apply Nat2Z.inj in H1.
    rewrite <- (pad_message m'), <- (pad_message m), E, H1. reflexivity. }
  split; [apply Rec_padMessage_spec|]. split; [apply Iter_padMessage_spec|].
  split; [now apply Hlen|]. split; [apply pad_message|]. split.
  { unfold Spec.pad. cbv zeta. rewrite app_nth2 by lia.
    now rewrite Nat.sub_diag. }
  split.
  - rewrite Rec_padMessage_spec. intros [= E]. now apply Hinj.
  - rewrite Iter_padMessage_spec. intros [= E]. now apply Hinj.
Qed.

Lemma X5_padding_undone_witness :
  exists p,
    Rec.padMessage [97] = Ok p /\ Iter.padMessage ([97], Ok tt) = (p, Ok tt)
    /\ Spec.be_value (skipn (List.length p - 8) p) / 8 = 1
    /\ firstn 1 p = [97]
    /\ nth 1 p 0 = 0x80
    /\ (Rec.padMessage [98] = Ok p -> [98] = [97])
    /\ (Iter.padMessage ([98], Ok tt) = (p, Ok tt) -> [98] = [97]).
Proof.
  apply (X5_padding_undone [97] [98]); vm_compute; reflexivity.
Defined.

(** ** The shape of the output *)

Lemma hex_nonempty (n : nat) (p : positive) (rest : string) :
  Z.pos p < 16 ^ Z.of_nat n ->
  (String.length rest < String.length (HexString.Raw.of_pos p rest))%nat.
Proof.
  revert p rest. induction n as [|n IH]; intros p rest Hp.
  - change (16 ^ Z.of_nat 0) with 1 in Hp. lia.
  - rewrite Nat2Z.inj_succ, Z.pow_succ_r in Hp by lia.
    do 4 (try destruct p as [p|p|]);
      cbn [HexString.Raw.of_pos String.length];
      try lia;
      (eapply Nat.lt_trans; [|apply IH; lia]; cbn [String.length]; lia).
Qed.

Lemma toString16_word (w : Z) :
  Spec.is_word w ->
  (1 <= String.length (JS.toString16 w) <= 8)%nat
  /\ HexString.Raw.to_N (JS.toString16 w) 0 = Z.to_N w.
Proof.
  intros [H0 H1]. destruct w as [|p|p]; [split; [cbn; lia | reflexivity] | | lia].
  unfold JS.toString16. split.
  - pose proof (hex_length 8 p EmptyString) as Hle.
    pose proof (hex_nonempty 8 p EmptyString) as Hlt.
    change (16 ^ Z.of_nat 8) with (2 ^ 32) in Hle, Hlt. cbn [String.length] in Hle, Hlt.
    specialize (Hle H1). specialize (Hlt H1). lia.
  - rewrite HexString.Raw.to_N_of_pos. reflexivity.
Qed.

(** X6.  On every string [sha1] of [src/sha1.js] returns, without error,
    five words rendered with one to eight hexadecimal digits each; read back
    as hexadecimal numbers the five strings are the words, so that the
    missing zero padding loses nothing as long as the groups are kept
    apart. *)
Theorem X6_sha1_output (s : JS.str) :
  exists h,
    Iter.sha1 (JS.Str s) = Ok (map JS.toString16 h)
    /\ List.length h = 5%nat
    /\ Forall (fun w => isUint32 w = true) h
    /\ Forall (fun g => (1 <= String.length g <= 8)%nat) (map JS.toString16 h)
    /\ map (fun g => HexString.Raw.to_N g 0) (map JS.toString16 h) = map Z.to_N h.
Proof.
  destruct (Iter_sha1_defined s) as (h & Hh & H5 & Hw).
  exists h. split; [exact Hh|]. split; [exact H5|].
  rewrite Forall_forall in Hw. split; [|split].
  - apply Forall_forall. intros w Hin. apply isUint32_word. now apply Hw.
  - apply Forall_forall. intros g Hg. apply in_map_iff in Hg.
    destruct Hg as (w & <- & Hin). now apply toString16_word, Hw.
  - rewrite map_map. apply map_ext_in. intros w Hin. now apply toString16_word, Hw.
Qed.

(** X7.  When the generator a stage reads from throws, the stage passes on
    what it got and then throws the same error: [padMessage] adds no
    padding after the bytes, and [blocks] yields the blocks that were
    complete and reports the error of its source, not an incomplete
    block. *)
Theorem X7_errors_pass_through (ys : list Z) (e : error) :
  Iter.padMessage (ys, Err e) = (ys, Err e)
  /\ Iter.blocks (ys, Err e) = (Spec.parse ys, Err e)
  /\ List.length (Spec.parse ys) = (List.length ys / 64)%nat
  /\ drain (Iter.blocks (Iter.padMessage (ys, Err e))) = Err e.
Proof.
  split; [apply Iter_padMessage_error|]. split; [apply Iter_blocks_error|].
  split; [unfold Spec.parse; now rewrite length_map, chunks_count|].
  rewrite Iter_padMessage_error, Iter_blocks_error. apply drain_error.
Qed.

(** X8.  On a byte sequence with a remainder, [blocks] of [src/sha1.js]
    yields the [len / 64] complete blocks before it throws: a loop over it
    runs its body on every one of them, and only then gets "incomplete
    block", unless the body threw before. *)
Theorem X8_blocks_before_error (stream : list Z) (S : Type)
        (body : S -> list Z -> result S) (s : S) :
  (List.length stream mod 64 <> 0)%nat ->
  yielded (Iter.blocks (stream, Ok tt)) = Spec.parse stream
  /\ List.length (Spec.parse stream) = (List.length stream / 64)%nat
  /\ for_of (Iter.blocks (stream, Ok tt)) body s
     = (s' <- fold_result body (Spec.parse stream) s ;; Err IncompleteBlock).
Proof.
  intros Hr. rewrite Iter_blocks_spec.
  rewrite (proj2 (Nat.eqb_neq _ _) Hr).
  split; [reflexivity|].
  split; [unfold Spec.parse; now rewrite length_map, chunks_count|].
  reflexivity.
Qed.

Lemma X8_blocks_before_error_witness :
  yielded (Iter.blocks (repeat 1 65, Ok tt)) = Spec.parse (repeat 1 65)
  /\ List.length (Spec.parse (repeat 1 65)) = (List.length (repeat 1 65) / 64)%nat
  /\ for_of (Iter.blocks (repeat 1 65, Ok tt)) (fun n _ => Ok (S n)) 0%nat
     = (s' <- fold_result (fun n _ => Ok (S n)) (Spec.parse (repeat 1 65)) 0%nat ;;
        Err IncompleteBlock).
Proof.
  apply (X8_blocks_before_error (repeat 1 65) nat (fun n _ => Ok (S n)) 0%nat).
  vm_compute. discriminate.
Defined.

(** X9.  The guards of [digest].  In [src/sha1.js] a block that has not 16
    entries is refused with its length, whatever the state.  In
    [src/unnamed/part_000] no block leaves the state as it is, a first block
    that has not 16 entries is refused, and a first block of 16 entries
    with one that is not a word is refused with "not uint32". *)
Theorem X9_digest_guards (block : list Z) (rest : list (list Z)) (sum : list Z) :
  Rec.digest [] sum = Ok sum
  /\ (List.length block <> 16%nat ->
      Iter.digest block sum = Err (IncorrectBlockSize (Z.of_nat (List.length block)))
      /\ Rec.digest (block :: rest) sum
         = Err (IncorrectBlockSize (Z.of_nat (List.length block))))
  /\ (List.length block = 16%nat -> ~ Forall Spec.is_word block ->
      exists w, In w block /\ isUint32 w = false
                /\ Rec.digest (block :: rest) sum = Err (NotUint32 w)).
Proof.
  split; [reflexivity|]. split.
  - intros Hlen. unfold Iter.digest. cbn [Rec.digest].
    change (blockSizeBytes / wordSizeBytes) with 16.
    rewrite (proj2 (Z.eqb_neq (Z.of_nat (List.length block)) 16)) by lia.
    split; reflexivity.
  - intros Hlen Hnw.
    destruct (check_block block) as [[Hw _] | (w & Hin & Hn & Herr)]; [contradiction|].
    exists w. split; [assumption|]. split.
    + destruct (isUint32 w) eqn:E; [|reflexivity]. apply isUint32_iff in E. contradiction.
    + cbn [Rec.digest]. rewrite Hlen. change (negb (Z.of_nat 16 =? 16)) with false.
      cbv iota. rewrite Herr. reflexivity.
Qed.

Lemma X9_digest_guards_witness :
  Iter.digest [1; 2; 3] init = Err (IncorrectBlockSize 3)
  /\ Rec.digest [[1; 2; 3]] init = Err (IncorrectBlockSize 3).
Proof.
  destruct (X9_digest_guards [1; 2; 3] [] init) as (_ & H & _).
  apply H. discriminate.
Defined.

(** X10.  On a string whose code units are all at most 0xFF, [sha1] is the
    composition of its stages: the state, started from the five initial
    words, folded with the compression step over the blocks of the padded
    character codes, then rendered; and the recursion of [digest] over a
    list of blocks in [src/unnamed/part_000] is the loop over [digest] of
    [src/sha1.js]. *)
Theorem X10_sha1_composition (s : JS.str) (bs : list (list Z)) (S : list Z) :
  Forall Spec.is_byte (map JS.charCode s) ->
  Forall (fun b => List.length b = 16%nat /\ Forall Spec.is_word b) bs ->
  List.length S = 5%nat -> Forall Spec.is_word S ->
  Iter.sha1 (JS.Str s)
  = Ok (map JS.toString16
            (fold_left Spec.compress (Spec.parse (Spec.pad (map JS.charCode s))) init))
  /\ Rec.sha1 (JS.Str s) = Iter.sha1 (JS.Str s)
  /\ Rec.digest bs S = fold_result (fun hash block => Iter.digest block hash) bs S
  /\ Rec.digest bs S = Ok (fold_left Spec.compress bs S).
Proof.
  intros Hs Hbs HS HSw.
  split; [now apply Iter_sha1_spec|].
  split; [now rewrite Rec_sha1_spec, Iter_sha1_spec|].
  rewrite Rec_digest_spec, Iter_fold_spec by assumption. split; reflexivity.
Qed.

Lemma X10_sha1_composition_witness :
  Rec.sha1 (JS.Str (JS.of_string "a")) = Iter.sha1 (JS.Str (JS.of_string "a")).
Proof.
  destruct (X10_sha1_composition (JS.of_string "a") [] init) as (_ & H & _).
  - repeat constructor; vm_compute; congruence.
  - constructor.
  - reflexivity.
  - repeat constructor; vm_compute; congruence.
  - exact H.
Defined.

(** X11.  The errors [sha1] can end with.  In [src/sha1.js]: only
    "unsupported input type", and only for an input that is not a string.
    In [src/unnamed/part_000]: that one, or "not uint32" for a string with a
    code unit above 0xFF; never the stream-size, incomplete-block,
    incomplete-word, negative-length or block-size errors. *)
Theorem X11_reachable_errors (v : JS.value) (e : error) :
  (Iter.sha1 v = Err e ->
   e = UnsupportedInputType (JS.typeof v) /\ forall s, v <> JS.Str s)
  /\ (Rec.sha1 v = Err e ->
      (e = UnsupportedInputType (JS.typeof v) /\ forall s, v <> JS.Str s)
      \/ (exists w s, e = NotUint32 w /\ isUint32 w = false /\ v = JS.Str s
                      /\ Exists (fun u => 255 < JS.charCode u) s)).
Proof.
  split.
  - destruct v as [| |b|n|s|]; try (intros [= <-]; split; [reflexivity | discriminate]).
    destruct (Iter_sha1_defined s) as (h & -> & _). discriminate.
  - destruct v as [| |b|n|s|];
      try (intros [= <-]; left; split; [reflexivity | discriminate]).
    intros He. right.
    destruct (sha1_string_cases s) as (h & _ & _ & [HR | (w & Hnw & _ & HR)]);
      rewrite HR in He; [discriminate|]. injection He as <-.
    exists w, s. split; [reflexivity|]. split.
    { destruct (isUint32 w) eqn:E; [|reflexivity]. apply isUint32_iff in E. contradiction. }
    split; [reflexivity|].
    destruct (Forall_Exists_dec (fun u => JS.charCode u <= 255)
                                (fun u => Z_le_dec (JS.charCode u) 255) s)
      as [Hall | Hex].
    + exfalso. rewrite Rec_sha1_spec in HR; [discriminate|].
      apply Forall_map. apply Forall_impl with (2 := Hall).
      intros u Hu. pose proof (charCode_range u). split; lia.
    + apply Exists_impl with (2 := Hex). intros u Hu. lia.
Qed.

Lemma X11_reachable_errors_witness :
  (UnsupportedInputType "number" = UnsupportedInputType (JS.typeof (JS.Number 0))
   /\ forall s, JS.Number 0 <> JS.Str s).
Proof.
  apply (X11_reachable_errors (JS.Number 0) (UnsupportedInputType "number")).
  reflexivity.
Defined.

(** X12.  [addVec] on two arrays of the same length, of any length, whose
    entries lie from -2^30 to below 2^52 (so that every sum is exact in the
    source's arithmetic and at least -2^31), is the entry-by-entry sum
    modulo 2^32, in both files. *)
Theorem X12_addVec_sums (xs ys : list Z) :
  List.length xs = List.length ys ->
  Forall (fun x => - 2 ^ 30 <= x < 2 ^ 52) xs ->
  Forall (fun y => - 2 ^ 30 <= y < 2 ^ 52) ys ->
  Iter.addVec xs ys = map (fun '(x, y) => (x + y) mod 2 ^ 32) (combine xs ys)
  /\ Rec.addVec xs ys = Iter.addVec xs ys
  /\ List.length (Iter.addVec xs ys) = List.length xs
  /\ Forall (fun w => isUint32 w = true) (Iter.addVec xs ys)
  /\ Iter.addVec ys xs = Iter.addVec xs ys.
Proof.
  intros Hlen _ _.
  revert ys Hlen. induction xs as [|x xs IH]; intros [|y ys] Hlen; try discriminate.
  - repeat split; constructor.
  - injection Hlen as Hlen. destruct (IH ys Hlen) as (H1 & H2 & H3 & H4 & H5).
    unfold Iter.addVec, Rec.addVec in *. cbn [addVec combine map List.length].
    rewrite !Iter_uint32_mod, Rec_uint32_mod, H2, H5, H3, (Z.add_comm y x).
    split; [now rewrite H1|]. split; [reflexivity|]. split; [reflexivity|].
    split; [|reflexivity].
    constructor; [apply isUint32_word, mod32_word | exact H4].
Qed.

Lemma X12_addVec_sums_witness :
  Iter.addVec [0xffffffff; 0x67452301] [1; 0xefcdab89]
  = map (fun '(x, y) => (x + y) mod 2 ^ 32)
        (combine [0xffffffff; 0x67452301] [1; 0xefcdab89]).
Proof.
  apply (X12_addVec_sums [0xffffffff; 0x67452301] [1; 0xefcdab89]).
  - reflexivity.
  - repeat constructor; vm_compute; congruence.
  - repeat constructor; vm_compute; congruence.
Defined.

(** ** The self-test *)

Lemma conj_all (bits : list bool) (r : bool) :
  fold_left (fun r i => r && i) bits r = true <-> r = true /\ Forall (fun b => b = true) bits.
Proof.
  revert r. induction bits as [|b bits IH]; intros r; cbn [fold_left].
  - split; [intros ->; split; [reflexivity | constructor] | tauto].
  - rewrite IH, andb_true_iff. split.
    + intros [[-> ->] H]. split; [reflexivity | now constructor].
    + intros [-> H]. inversion H; subst. tauto.
Qed.

(** The loop of [check]: as long as [sha1] returns, one line per entry. *)
Lemma check_loop (table : list (JS.value * string)) (results : list bool) :
  let body := fun (results : list bool) '(val, hash) =>
                gen_bind (gen_call (Iter.got val))
                  (fun got => gen_bind (yield (String.eqb got hash, got, hash))
                                (fun _ => gen_ret (results ++ [String.eqb got hash]))) in
  (forall gots,
      Forall2 (fun '(val, hash) got => Iter.got val = Ok got) table gots ->
      fold_gen body table results
      = (map (fun '((val, hash), got) => (String.eqb got hash, got, hash)) (combine table gots),
         Ok (results ++ map (fun '((val, hash), got) => String.eqb got hash)
                            (combine table gots))))
  /\ (forall bits, outcome (fold_gen body table results) = Ok bits ->
                   exists gots,
                     Forall2 (fun '(val, hash) got => Iter.got val = Ok got) table gots).
Proof.
  intros body. revert results. induction table as [|[val hash] table IH]; intros results.
  - split.
    + intros gots H. inversion H; subst. cbn. now rewrite app_nil_r.
    + intros bits _. exists []. constructor.
  - split.
    + intros gots H. inversion H as [|x got l gots' Hgot Hrest]; subst.
      cbn [fold_gen]. unfold body at 1. rewrite Hgot.
      unfold gen_call, yield, gen_ret. unfold gen_bind at 1 2 3.
      rewrite (proj1 (IH _) gots' Hrest). cbn [combine map app].
      now rewrite <- app_assoc.
    + intros bits. cbn [fold_gen]. unfold body at 1.
      destruct (Iter.got val) as [got|e] eqn:Hgot.
      * unfold gen_call, yield, gen_ret. unfold gen_bind at 1 2 3.
        destruct (fold_gen body table (results ++ [String.eqb got hash]))
          as [ys r] eqn:Hfold.
        cbn [outcome snd]. intros Hr.
        destruct (proj2 (IH (results ++ [String.eqb got hash])) bits) as (gots & Hgots).
        { rewrite Hfold. exact Hr. }
        exists (got :: gots). now constructor.
      * unfold gen_call. unfold gen_bind at 1 2. cbn [outcome snd]. discriminate.
Qed.

(** X13.  [check] returns true exactly when [sha1] returns for every entry
    of the table and its words, joined with spaces, are the expected string;
    it then has logged one line [(true, hash, hash)] per entry.  The four
    short entries of the table of [src/sha1.js] pass. *)
Theorem X13_check (table : list (JS.value * string)) :
  (outcome (Iter.check table) = Ok true
   <-> Forall (fun '(val, hash) => Iter.got val = Ok hash) table)
  /\ (Forall (fun '(val, hash) => Iter.got val = Ok hash) table ->
      Iter.check table = (map (fun '(val, hash) => (true, hash, hash)) table, Ok true))
  /\ outcome (Iter.check (firstn 4 Iter.table)) = Ok true.
Proof.
  assert (Hfwd : Forall (fun '(val, hash) => Iter.got val = Ok hash) table ->
                 Iter.check table
                 = (map (fun '(val, hash) => (true, hash, hash)) table, Ok true)).
  { intros Hall. unfold Iter.check.
    assert (H2 : Forall2 (fun '(val, hash) got => Iter.got val = Ok got)
                         table (map snd table)).
    { clear -Hall. induction Hall as [|[val hash] table H _ IH]; cbn; now constructor. }
    rewrite (proj1 (check_loop table []) _ H2). unfold gen_bind, gen_ret.
    rewrite app_nil_r. f_equal.
    - clear. induction table as [|[val hash] table IH]; [reflexivity|].
      cbn [map combine snd]. now rewrite String.eqb_refl, IH.
    - f_equal. apply conj_all. split; [reflexivity|].
      clear. induction table as [|[val hash] table IH]; [constructor|].
      cbn [map combine snd app]. constructor; [apply String.eqb_refl | exact IH]. }
  split; [split|split; [exact Hfwd | vm_compute; reflexivity]].
  - unfold Iter.check. intros Hout.
    destruct (fold_gen _ table []) as [ys [bits|e]] eqn:Hfold;
      unfold gen_bind, gen_ret in Hout; cbn [outcome snd] in Hout; [|discriminate].
    destruct (proj2 (check_loop table []) bits) as (gots & Hgots).
    { cbv zeta. rewrite Hfold. reflexivity. }
    pose proof (proj1 (check_loop table []) gots Hgots) as Heq.
    cbv zeta in Heq. rewrite Hfold in Heq. injection Heq as _ ->.
    injection Hout as Hout. apply conj_all in Hout. destruct Hout as [_ Hall].
    clear -Hgots Hall. cbn [app] in Hall.
    induction Hgots as [|[val hash] got table gots Hgot _ IH]; [constructor|].
    cbn [combine map] in Hall. inversion Hall as [|? ? Hb Hrest]; subst.
    apply String.eqb_eq in Hb. subst. constructor; [exact Hgot | now apply IH].
  - intros Hall. now rewrite Hfwd.
Qed.

Lemma X13_check_witness :
  Iter.check [(JS.Str (JS.of_string ""),
               "da39a3ee 5e6b4b0d 3255bfef 95601890 afd80709"%string)]
  = ([(true, "da39a3ee 5e6b4b0d 3255bfef 95601890 afd80709"%string,
       "da39a3ee 5e6b4b0d 3255bfef 95601890 afd80709"%string)], Ok true).
Proof.
  apply (X13_check [(JS.Str (JS.of_string ""),
                     "da39a3ee 5e6b4b0d 3255bfef 95601890 afd80709"%string)]).
  constructor; [vm_compute; reflexivity | constructor].
Defined.

(** ** The selector, bit by bit *)

Lemma choice_bit (B C D i : Z) :
  0 <= i < 32 ->
  Z.testbit (Spec.Ch B C D) i = if Z.testbit B i then Z.testbit C i else Z.testbit D i.
Proof.
  intros Hi. unfold Spec.Ch, Spec.not32.
  rewrite Z.lor_spec, !Z.land_spec, Z.mod_pow2_bits_low, Z.lnot_spec by lia.
  destruct (Z.testbit B i), (Z.testbit C i), (Z.testbit D i); reflexivity.
Qed.

Lemma majority_bit (B C D i : Z) :
  Z.testbit (Spec.Maj B C D) i
  = (Z.testbit B i && Z.testbit C i) || (Z.testbit B i && Z.testbit D i)
    || (Z.testbit C i && Z.testbit D i).
Proof. unfold Spec.Maj. now rewrite !Z.lor_spec, !Z.land_spec. Qed.

Lemma parity_bit (B C D i : Z) :
  Z.testbit (Spec.Parity B C D) i
  = xorb (xorb (Z.testbit B i) (Z.testbit C i)) (Z.testbit D i).
Proof. unfold Spec.Parity. now rewrite !Z.lxor_spec. Qed.

(** X14.  [f] checks [B], [C] and [D], in this order, before it looks at
    [t]: the first of them that is not a word is reported, whatever [t] is.
    On three words and [t] in [0, 79] it returns a word whose bit [i] is:
    the bit of [C] or of [D] as the bit of [B] is 1 or 0, for [t < 20]; the
    majority of the three bits, for [40 <= t < 60]; their sum modulo 2
    otherwise.  All of it in both files. *)
Theorem X14_selector_bits (t B C D : Z) :
  (isUint32 B = false ->
   Iter.f t B C D = Err (NotUint32 B) /\ Rec.f t B C D = Err (NotUint32 B))
  /\ (isUint32 B = true -> isUint32 C = false ->
      Iter.f t B C D = Err (NotUint32 C) /\ Rec.f t B C D = Err (NotUint32 C))
  /\ (isUint32 B = true -> isUint32 C = true -> isUint32 D = false ->
      Iter.f t B C D = Err (NotUint32 D) /\ Rec.f t B C D = Err (NotUint32 D))
  /\ (isUint32 B = true -> isUint32 C = true -> isUint32 D = true -> 0 <= t <= 79 ->
      exists r,
        Iter.f t B C D = Ok r /\ Rec.f t B C D = Ok r /\ isUint32 r = true
        /\ forall i, 0 <= i < 32 ->
             Z.testbit r i =
             if t <? 20 then (if Z.testbit B i then Z.testbit C i else Z.testbit D i)
             else if (40 <=? t) && (t <? 60) then
               (Z.testbit B i && Z.testbit C i) || (Z.testbit B i && Z.testbit D i)
               || (Z.testbit C i && Z.testbit D i)
             else xorb (xorb (Z.testbit B i) (Z.testbit C i)) (Z.testbit D i)).
Proof.
  unfold Iter.f, Rec.f. split; [|split; [|split]].
  - intros HB. unfold f, checkUint32. rewrite HB. split; reflexivity.
  - intros HB HC. unfold f, checkUint32. rewrite HB, HC. split; reflexivity.
  - intros HB HC HD. unfold f, checkUint32. rewrite HB, HC, HD. split; reflexivity.
  - intros HB HC HD Ht. apply isUint32_iff in HB, HC, HD.
    exists (Spec.f (Z.to_nat t) B C D).
    split; [now apply f_spec; try apply Iter_uint32_mod|].
    split; [now apply f_spec; try apply Rec_uint32_mod|].
    split; [apply isUint32_word, (Spec_f_word _ Iter_uint32_mod); assumption|].
    intros i Hi. unfold Spec.f.
    change 60%nat with (Z.to_nat 60). change 40%nat with (Z.to_nat 40).
    change 20%nat with (Z.to_nat 20). rewrite !ltb_to_nat by lia.
    destruct (Z.ltb_spec t 20); [now apply choice_bit|].
    destruct (Z.ltb_spec t 40), (Z.leb_spec 40 t); try lia; cbn [andb];
      [apply parity_bit|].
    destruct (Z.ltb_spec t 60); [apply majority_bit | apply parity_bit].
Qed.

Lemma X14_selector_bits_witness :
  Iter.f 80 (-1) 0 0 = Err (NotUint32 (-1)) /\ Rec.f 80 (-1) 0 0 = Err (NotUint32 (-1)).
Proof. apply (X14_selector_bits 80 (-1) 0 0). reflexivity. Defined.

(** ** Bytes and words *)

Lemma be32_bytes (b0 b1 b2 b3 : Z) :
  Spec.is_byte b0 -> Spec.is_byte b1 -> Spec.is_byte b2 -> Spec.is_byte b3 ->
  let w := Spec.be32 [b0; b1; b2; b3] in
  [w / 2 ^ 24; (w / 2 ^ 16) mod 256; (w / 2 ^ 8) mod 256; w mod 256] = [b0; b1; b2; b3].
Proof.
  unfold Spec.is_byte, Spec.be32. cbn [nth]. intros H0 H1 H2 H3. cbv zeta.
  change (2 ^ 24) with 16777216. change (2 ^ 16) with 65536. change (2 ^ 8) with 256.
  set (w := b0 * 16777216 + b1 * 65536 + b2 * 256 + b3).
  assert (E0 : w / 16777216 = b0) by (subst w; Z.div_mod_to_equations; lia).
  assert (E1 : w / 65536 = b0 * 256 + b1) by (subst w; Z.div_mod_to_equations; lia).
  assert (E2 : w / 256 = b0 * 65536 + b1 * 256 + b2) by (subst w; Z.div_mod_to_equations; lia).
  rewrite E0, E1, E2. repeat f_equal; subst w; Z.div_mod_to_equations; lia.
Qed.

(** X15.  On a sequence of bytes whose length is a multiple of 4, [words]
    returns one word per group of four, and the bytes are recovered from the
    words, most significant byte first: the grouping loses nothing. *)
Theorem X15_words_undone (stream : list Z) :
  (List.length stream mod 4 = 0)%nat -> Forall Spec.is_byte stream ->
  exists ws,
    words stream = Ok ws
    /\ List.length ws = (List.length stream / 4)%nat
    /\ Forall (fun w => isUint32 w = true) ws
    /\ flat_map (fun w => [w / 2 ^ 24; (w / 2 ^ 16) mod 256; (w / 2 ^ 8) mod 256; w mod 256])
                ws = stream.
Proof.
  intros Hmod. apply Nat.Div0.div_exact in Hmod.
  remember (List.length stream / 4)%nat as k eqn:Hk. clear Hk.
  revert stream Hmod. induction k as [|k IH]; intros stream Hlen Hbytes.
  - destruct stream; [|discriminate]. exists []. rewrite words_eqn.
    repeat split; constructor.
  - destruct stream as [|b0 [|b1 [|b2 [|b3 rest]]]]; try (cbn in Hlen; lia).
    inversion Hbytes as [|? ? H0 Hb1]; subst. inversion Hb1 as [|? ? H1 Hb2]; subst.
    inversion Hb2 as [|? ? H2 Hb3]; subst. inversion Hb3 as [|? ? H3 Hrest]; subst.
    destruct (IH rest) as (ws & Hws & Hl & Hw & Hflat);
      [cbn in Hlen; lia | assumption |].
    exists (Spec.be32 [b0; b1; b2; b3] :: ws).
    rewrite words_eqn.
    rewrite (proj2 (Z.eqb_neq _ _)), (proj2 (Z.ltb_ge _ _)) by (cbn [List.length]; lia).
    change (skipn 4 (b0 :: b1 :: b2 :: b3 :: rest)) with rest.
    rewrite Hws. cbn [bind]. rewrite be32_fold.
    change (firstn 4 (b0 :: b1 :: b2 :: b3 :: rest)) with [b0; b1; b2; b3].
    split; [reflexivity|]. split; [cbn [List.length] in *; lia|]. split.
    + constructor; [|exact Hw].
      apply isUint32_word, be32_word.
      repeat (apply Forall_cons; [assumption|]). apply Forall_nil.
    + cbn [flat_map]. rewrite Hflat.
      pose proof (be32_bytes b0 b1 b2 b3 H0 H1 H2 H3) as E. cbv zeta in E.
      rewrite E. reflexivity.
Qed.

Lemma X15_words_undone_witness :
  exists ws,
    words [1; 2; 3; 4] = Ok ws
    /\ List.length ws = (List.length [1; 2; 3; 4] / 4)%nat
    /\ Forall (fun w => isUint32 w = true) ws
    /\ flat_map (fun w => [w / 2 ^ 24; (w / 2 ^ 16) mod 256; (w / 2 ^ 8) mod 256; w mod 256])
                ws = [1; 2; 3; 4].
Proof.
  apply (X15_words_undone [1; 2; 3; 4]); [reflexivity|].
  repeat constructor; vm_compute; congruence.
Defined.

(** ** Entries above 2^32 in a block *)

Lemma ToInt32_low (x : Z) : JS.ToInt32 (x mod 2 ^ 32) = JS.ToInt32 x.
Proof. unfold JS.ToInt32. now rewrite Z.mod_mod by lia. Qed.

Lemma bit_xor_low (x y : Z) :
  JS.bit_xor (x mod 2 ^ 32) (y mod 2 ^ 32) = JS.bit_xor x y.
Proof. unfold JS.bit_xor. now rewrite !ToInt32_low. Qed.

Lemma bit_xor_low_r (x y : Z) : JS.bit_xor x (y mod 2 ^ 32) = JS.bit_xor x y.
Proof. unfold JS.bit_xor. now rewrite ToInt32_low. Qed.

Lemma nth_low32 (W : list Z) (n : nat) : nth n (Spec.low32 W) 0 = nth n W 0 mod 2 ^ 32.
Proof. exact (map_nth (fun w => w mod 2 ^ 32) W 0 n). Qed.

Lemma get_low32 (W : list Z) (i : Z) : JS.get (Spec.low32 W) i = JS.get W i mod 2 ^ 32.
Proof.
  unfold JS.get. destruct (i <? 0); [reflexivity | apply nth_low32].
Qed.

Lemma low32_words (W : list Z) : Forall Spec.is_word (Spec.low32 W).
Proof.
  unfold Spec.low32. apply Forall_forall. intros x Hx. apply in_map_iff in Hx.
  destruct Hx as (y & <- & _). apply mod32_word.
Qed.

Lemma low32_id (W : list Z) : Forall Spec.is_word W -> Spec.low32 W = W.
Proof.
  intros HW. unfold Spec.low32. induction HW as [|x W Hx _ IH]; [reflexivity|].
  cbn [map]. now rewrite word_mod32, IH.
Qed.

Section LowBits.

Variable uint32 : Z -> Z.
Hypothesis uint32_mod : forall v, uint32 v = v mod 2 ^ 32.

(** The turn of the second loop of the schedule. *)
Let body : list Z -> Z -> result (list Z) :=
  fun W t =>
    w <- ROTL uint32 1
           (uint32 (JS.bit_xor
                      (JS.bit_xor
                         (JS.bit_xor (JS.get W (t - 3)) (JS.get W (t - 8)))
                         (JS.get W (t - 14)))
                      (JS.get W (t - 16)))) ;;
    let W := JS.set W t w in
    checkUint32 (JS.get W t) ;;;
    Ok W.

Lemma schedule_is_loop (block : list Z) :
  List.length block = 16%nat ->
  schedule uint32 block = fold_result body (map Z.of_nat (seq 16 64)) block.
Proof.
  intros Hlen. unfold schedule. cbv zeta.
  change (JS.range 0 16) with (map Z.of_nat (seq (@List.length Z []) 16)).
  rewrite schedule_copy, app_nil_l. change (@List.length Z []) with 0%nat.
  replace (seq 0 16) with (seq 0 (List.length block)) by now rewrite Hlen.
  rewrite nth_seq_block. reflexivity.
Qed.

Lemma body_low32 (W : list Z) :
  exists w, body W (Z.of_nat (List.length W)) = Ok (W ++ [w])
            /\ body (Spec.low32 W) (Z.of_nat (List.length (Spec.low32 W)))
               = Ok (Spec.low32 W ++ [w])
            /\ Spec.is_word w.
Proof.
  assert (Hstep : forall V x,
             Spec.is_word x ->
             (w <- ROTL uint32 1 x ;;
              let V' := JS.set V (Z.of_nat (List.length V)) w in
              checkUint32 (JS.get V' (Z.of_nat (List.length V))) ;;; Ok V')
             = Ok (V ++ [Spec.rotl 1 x])).
  { intros V x Hx. rewrite (ROTL_rotl uint32 uint32_mod) by (assumption || lia).
    cbn [bind]. cbv zeta. rewrite set_at_length, get_nat, nth_middle.
    rewrite checkUint32_word by (apply rotl_word; [assumption|lia]). reflexivity. }
  set (x := uint32 (JS.bit_xor
                      (JS.bit_xor
                         (JS.bit_xor (JS.get W (Z.of_nat (List.length W) - 3))
                                     (JS.get W (Z.of_nat (List.length W) - 8)))
                         (JS.get W (Z.of_nat (List.length W) - 14)))
                      (JS.get W (Z.of_nat (List.length W) - 16)))).
  assert (Hx : Spec.is_word x) by apply (uint32_word uint32 uint32_mod).
  exists (Spec.rotl 1 x). split; [|split].
  - unfold body. fold x. now apply Hstep.
  - assert (Hl : List.length (Spec.low32 W) = List.length W)
      by (unfold Spec.low32; now rewrite length_map).
    unfold body. rewrite !get_low32, bit_xor_low, !bit_xor_low_r, !Hl.
    fold x. rewrite <- Hl.
    pose proof (Hstep (Spec.low32 W) x Hx) as H. cbv zeta in H. exact H.
  - apply rotl_word; [assumption|lia].
Qed.

Lemma loop_low32 (n : nat) (W : list Z) :
  exists V,
    fold_result body (map Z.of_nat (seq (List.length W) n)) W = Ok V
    /\ fold_result body (map Z.of_nat (seq (List.length W) n)) (Spec.low32 W)
       = Ok (Spec.low32 V).
Proof.
  revert W. induction n as [|n IH]; intros W.
  - exists W. split; reflexivity.
  - destruct (body_low32 W) as (w & H1 & H2 & Hw).
    destruct (IH (W ++ [w])) as (V & HV1 & HV2).
    exists V. cbn [seq map fold_result].
    replace (List.length (Spec.low32 W)) with (List.length W) in H2
      by (unfold Spec.low32; now rewrite length_map).
    rewrite H1, H2. cbn [bind].
    replace (S (List.length W)) with (List.length (W ++ [w]))
      by (rewrite length_app; simpl; lia).
    split; [exact HV1|].
    replace (Spec.low32 W ++ [w]) with (Spec.low32 (W ++ [w])); [exact HV2|].
    unfold Spec.low32. rewrite map_app. cbn [map]. now rewrite word_mod32.
Qed.

Lemma rounds_low32 (n : nat) (W : list Z) (v : Z * Z * Z * Z * Z) :
  Spec.rounds n (Spec.low32 W) v = Spec.rounds n W v.
Proof.
  induction n as [|n IH]; [reflexivity|].
  cbn [Spec.rounds]. rewrite IH.
  destruct (Spec.rounds n W v) as [[[[a b] c] d] e]. unfold Spec.round.
  rewrite nth_low32. now rewrite Z.add_mod_idemp_r by lia.
Qed.

Lemma schedule_low32 (block : list Z) :
  List.length block = 16%nat ->
  exists W, schedule uint32 block = Ok W
            /\ Spec.schedule (Spec.low32 block) = Spec.low32 W.
Proof.
  intros Hlen.
  assert (Hlen' : List.length (Spec.low32 block) = 16%nat)
    by (unfold Spec.low32; now rewrite length_map).
  pose proof (schedule_spec uint32 uint32_mod (Spec.low32 block) Hlen'
                            (low32_words block)) as Hspec.
  rewrite (schedule_is_loop _ Hlen') in Hspec.
  rewrite (schedule_is_loop _ Hlen).
  destruct (loop_low32 64 block) as (W & H1 & H2). rewrite Hlen in H1, H2.
  exists W. split; [exact H1|]. rewrite H2 in Hspec. now injection Hspec.
Qed.

End LowBits.

Lemma update_low32 (W S : list Z) : Spec.update (Spec.low32 W) S = Spec.update W S.
Proof.
  unfold Spec.update. destruct S as [|s0 [|s1 [|s2 [|s3 [|s4 [|]]]]]]; try reflexivity.
  now rewrite rounds_low32.
Qed.

Lemma Iter_digest_low32 (block S : list Z) :
  List.length block = 16%nat -> List.length S = 5%nat -> Forall Spec.is_word S ->
  Iter.digest block S = Ok (Spec.compress S (Spec.low32 block)).
Proof.
  intros Hb HS HW.
  destruct (Iter_digest_update block S Hb HS HW) as (W & HWs & Hd).
  destruct (schedule_low32 Iter.uint32 Iter_uint32_mod block Hb) as (W' & HW' & Hlow).
  rewrite HWs in HW'. injection HW' as <-.
  rewrite Hd. unfold Spec.compress. now rewrite Hlow, update_low32.
Qed.

Lemma Iter_fold_low32 (bs : list (list Z)) (S : list Z) :
  Forall (fun b => List.length b = 16%nat) bs ->
  List.length S = 5%nat -> Forall Spec.is_word S ->
  fold_result (fun hash block => Iter.digest block hash) bs S
  = Ok (fold_left Spec.compress (map Spec.low32 bs) S).
Proof.
  intros Hbs. revert S. induction Hbs as [|b bs Hb _ IH]; intros S HS HW.
  - reflexivity.
  - cbn [fold_result map fold_left]. rewrite Iter_digest_low32 by assumption.
    cbn [bind]. destruct (compress_words S (Spec.low32 b) HS). now apply IH.
Qed.

(** The numbers [words] parses from the padded character codes of a string
    are below 2^41: four values below 2^16 each. *)
Lemma parse_string_range (s : JS.str) :
  Forall (Forall (fun w => 0 <= w < 2 ^ 41)) (Spec.parse (Spec.pad (map JS.charCode s))).
Proof.
  assert (Hpad : Forall (fun x => 0 <= x < 65536) (Spec.pad (map JS.charCode s))).
  { unfold Spec.pad. cbv zeta. apply Forall_app. split.
    - apply Forall_forall. intros x Hx. apply in_map_iff in Hx.
      destruct Hx as (u & <- & _). apply charCode_range.
    - apply Forall_app. split; [constructor; [lia | constructor]|].
      apply Forall_app. split.
      + apply Forall_forall. intros x Hx. apply repeat_spec in Hx. subst. lia.
      + apply Forall_impl with (2 := be64_bytes _). unfold Spec.is_byte. intros; lia. }
  assert (Hnth : forall g i, Forall (fun x => 0 <= x < 65536) g -> 0 <= nth i g 0 < 65536).
  { intros g i Hg. destruct (nth_in_or_default i g 0) as [Hin | ->]; [|lia].
    rewrite Forall_forall in Hg. now apply Hg. }
  apply Forall_forall. intros b Hb. unfold Spec.parse in Hb. apply in_map_iff in Hb.
  destruct Hb as (c & <- & Hc). apply Forall_forall. intros w Hw.
  apply in_map_iff in Hw. destruct Hw as (g & <- & Hg).
  assert (Hgr : Forall (fun x => 0 <= x < 65536) g).
  { apply Forall_forall. intros x Hx. rewrite Forall_forall in Hpad. apply Hpad.
    eapply in_chunks; [exact Hc|]. eapply in_chunks; eassumption. }
  pose proof (Hnth g 0%nat Hgr) as H0. pose proof (Hnth g 1%nat Hgr) as H1.
  pose proof (Hnth g 2%nat Hgr) as H2. pose proof (Hnth g 3%nat Hgr) as H3.
  unfold Spec.be32. change (2 ^ 41) with 2199023255552.
  change (2 ^ 24) with 16777216. change (2 ^ 16) with 65536. change (2 ^ 8) with 256. lia.
Qed.

(** X16.  [digest] of [src/sha1.js] does not check the entries of a block:
    an entry from -2^31 to below 2^52 (where the sums of the source are
    exact) is used modulo 2^32.  The numbers parsed from the padded
    character codes of a string are below 2^41, so [sha1] of any string,
    code units above 0xFF included, is the state folded with the compression
    step over these blocks, each number cut to its low 32 bits; two strings
    whose padded codes parse to the same numbers modulo 2^32 get the same
    digest. *)
Theorem X16_entries_modulo (block S : list Z) (s s' : JS.str) :
  List.length block = 16%nat -> Forall (fun w => - 2 ^ 31 <= w < 2 ^ 52) block ->
  List.length S = 5%nat -> Forall Spec.is_word S ->
  map Spec.low32 (Spec.parse (Spec.pad (map JS.charCode s)))
  = map Spec.low32 (Spec.parse (Spec.pad (map JS.charCode s'))) ->
  Iter.digest block S = Ok (Spec.compress S (Spec.low32 block))
  /\ Iter.digest block S = Iter.digest (Spec.low32 block) S
  /\ Forall (Forall (fun w => 0 <= w < 2 ^ 41)) (Spec.parse (Spec.pad (map JS.charCode s)))
  /\ Iter.sha1 (JS.Str s)
     = Ok (map JS.toString16
               (fold_left Spec.compress
                          (map Spec.low32 (Spec.parse (Spec.pad (map JS.charCode s))))
                          init))
  /\ Iter.sha1 (JS.Str s) = Iter.sha1 (JS.Str s').
Proof.
  intros Hb _ HS HW Hsame.
  assert (Hsha : forall x, Iter.sha1 (JS.Str x)
                           = Ok (map JS.toString16
                                     (fold_left Spec.compress
                                        (map Spec.low32
                                             (Spec.parse (Spec.pad (map JS.charCode x))))
                                        init))).
  { intros x. rewrite Iter_sha1_loop.
    rewrite Iter_fold_low32; try apply init_words; [reflexivity | apply parse_blocks]. }
  split; [now apply Iter_digest_low32|]. split.
  - rewrite !Iter_digest_low32; try assumption.
    + now rewrite (low32_id (Spec.low32 block)) by apply low32_words.
    + unfold Spec.low32. now rewrite length_map.
  - split; [apply parse_string_range|].
    split; [apply Hsha|]. now rewrite !Hsha, Hsame.
Qed.

Lemma X16_entries_modulo_witness :
  Iter.sha1 (JS.Str [JS.of_ascii "a"; JS.CodeUnit x01 x00])
  = Iter.sha1 (JS.Str [JS.of_ascii "b"; JS.CodeUnit x00 x00]).
Proof.
  apply (X16_entries_modulo (repeat (2 ^ 40) 16) init
                            [JS.of_ascii "a"; JS.CodeUnit x01 x00]
                            [JS.of_ascii "b"; JS.CodeUnit x00 x00]).
  - reflexivity.
  - repeat constructor; vm_compute; congruence.
  - reflexivity.
  - repeat constructor; vm_compute; congruence.
  - vm_compute. reflexivity.
Defined.

(** X17.  [digest] keeps the state at five words.  In [src/sha1.js], on a
    block of 16 integers from -2^31 to below 2^52, words or not, and a
    state of five words, it returns a state of five words: none of its
    checks ("not uint32", "invalid left shift amount", the round index)
    fires.  In [src/unnamed/part_000] the same holds for any number of
    blocks of 16 words. *)
Theorem X17_state_invariant (block : list Z) (bs : list (list Z)) (S : list Z) :
  List.length S = 5%nat -> Forall (fun w => isUint32 w = true) S ->
  (List.length block = 16%nat -> Forall (fun w => - 2 ^ 31 <= w < 2 ^ 52) block ->
   exists S', Iter.digest block S = Ok S'
              /\ List.length S' = 5%nat /\ Forall (fun w => isUint32 w = true) S')
  /\ (Forall (fun b => List.length b = 16%nat /\ Forall (fun w => isUint32 w = true) b) bs ->
      exists S', Rec.digest bs S = Ok S'
                 /\ List.length S' = 5%nat /\ Forall (fun w => isUint32 w = true) S').
Proof.
  intros HS HW.
  assert (HW' : Forall Spec.is_word S).
  { apply Forall_impl with (2 := HW). intros w. apply isUint32_iff. }
  assert (Hback : forall l, Forall Spec.is_word l -> Forall (fun w => isUint32 w = true) l).
  { intros l. apply Forall_impl. intros w. apply isUint32_iff. }
  split.
  - intros Hb _. exists (Spec.compress S (Spec.low32 block)).
    split; [now apply Iter_digest_low32|].
    destruct (compress_words S (Spec.low32 block) HS). split; [assumption | now apply Hback].
  - intros Hbs. exists (fold_left Spec.compress bs S). split.
    + apply Rec_digest_spec; try assumption.
      apply Forall_impl with (2 := Hbs). intros b [Hl Hb]. split; [exact Hl|].
      apply Forall_impl with (2 := Hb). intros w. apply isUint32_iff.
    + destruct (fold_compress_words bs S HS HW'). split; [assumption | now apply Hback].
Qed.

Lemma X17_state_invariant_witness :
  exists S', Iter.digest (repeat (2 ^ 40) 16) init = Ok S'
             /\ List.length S' = 5%nat /\ Forall (fun w => isUint32 w = true) S'.
Proof.
  destruct (X17_state_invariant (repeat (2 ^ 40) 16) [] init) as [H _].
  - reflexivity.
  - repeat constructor.
  - apply H; [reflexivity|]. repeat constructor; vm_compute; congruence.
Defined.

(** X18.  The number of blocks.  A message of [L] bytes is padded to
    [(L + 8) / 64 + 1] blocks of 64 bytes: up to 55 bytes fit in one block
    with the padding, 56 bytes already take two.  The padder adds between 0
    and 63 zero bytes, so that [Array(z)] in [src/unnamed/part_000] is never
    given a negative length. *)
Theorem X18_block_count (m : list Z) :
  let L := Z.of_nat (List.length m) in
  exists p,
    Rec.padMessage m = Ok p /\ Iter.padMessage (m, Ok tt) = (p, Ok tt)
    /\ Z.of_nat (List.length p) = 64 * ((L + 8) / 64 + 1)
    /\ 0 <= Z.of_nat (List.length p) - L - 9 <= 63
    /\ (forall stream, exists zs,
          Rec.addZeros stream L = Ok (stream ++ zs)
          /\ Forall (fun z => z = 0) zs /\ (List.length zs <= 63)%nat).
Proof.
  intros L. exists (Spec.pad m).
  split; [apply Rec_padMessage_spec|]. split; [apply Iter_padMessage_spec|].
  pose proof (pad_length m) as Hlen. fold L in Hlen.
  pose proof (zero_count_range L) as Hr.
  assert (Hk : Spec.zero_count L = 64 * ((L + 8) / 64 + 1) - L - 9).
  { unfold Spec.zero_count. Z.div_mod_to_equations. lia. }
  split; [lia|]. split; [lia|].
  intros stream. exists (repeat 0 (Z.to_nat (Spec.zero_count L))).
  unfold Rec.addZeros. cbv zeta. rewrite zero_count_formula.
  rewrite (proj2 (Z.ltb_ge _ _)) by lia.
  split; [reflexivity|]. split.
  - apply Forall_forall. intros z Hz. now apply repeat_spec in Hz.
  - rewrite repeat_length. lia.
Qed.

(** X19.  The two files agree stage by stage.  Drained, the generators of
    [src/sha1.js] give what the functions of [src/unnamed/part_000] return,
    the same values or the same error: the bytes of any input, the padded
    message and the blocks of any byte sequence. *)
Theorem X19_stages_agree (v : JS.value) (m : list Z) :
  drain (Iter.bytes v) = Rec.bytes v
  /\ drain (Iter.padMessage (Iter.bytes v)) = (b <- Rec.bytes v ;; Rec.padMessage b)
  /\ drain (Iter.padMessage (m, Ok tt)) = Rec.padMessage m
  /\ drain (Iter.blocks (m, Ok tt)) = Rec.blocks m.
Proof.
  assert (Hpad : forall x, drain (Iter.padMessage (x, Ok tt)) = Rec.padMessage x).
  { intros x. now rewrite Iter_padMessage_spec, Rec_padMessage_spec, drain_ok. }
  split; [|split; [|split; [apply Hpad|]]].
  - destruct v; try reflexivity. rewrite Iter_bytes_string. apply drain_ok.
  - destruct v; try reflexivity. rewrite Iter_bytes_string. cbn [Rec.bytes bind].
    apply Hpad.
  - rewrite Iter_blocks_spec.
    destruct (Nat.eqb_spec (List.length m mod 64) 0) as [E|E].
    + apply Nat.Div0.div_exact in E. rewrite (Rec_blocks_spec _ _ E). apply drain_ok.
    + rewrite Rec_blocks_incomplete by assumption. apply drain_error.
Qed.
